(** * systemd-ui: the backend of [server.py], embedded and verified

    The backend answers each request by running [systemctl] or
    [journalctl], reading what they print and building a JSON value.
    The development below follows [server.py] function by function.

    - A Python [str] is a [string] holding its UTF-8 bytes.  Substring
      tests, prefixes, suffixes and the two identifier patterns decide the
      same on bytes as on code points; [len] is only ever taken next to the
      ASCII-only pattern [UNIT_RE], where a string that passes has as many
      bytes as characters.
    - Values produced by [json.loads] are the type [json].
    - Exceptions are values of [exn]; a computation that may raise returns
      [exn + A], and one that also runs external commands lives in the
      monad [M], which records every command issued.
    - Library functions whose Unicode tables or float arithmetic are not part
      of this repository ([str.lower], [str.split], [int] on a string,
      [datetime.isoformat] ...) form the interface [PyText]; every theorem
      holds for all its implementations, and [ascii_text] implements it for
      ASCII text so that the definitions can be run.
    - The request handler [do_GET] is taken at the path and the parsed query
      of the request; what it sends is a [response].  Serving static files,
      the socket and the start of the server are outside this model. *)

From Stdlib Require Import ZArith Ascii String Floats.SpecFloat DecimalString.
From stdpp Require Import base tactics option list gmap strings sorting.

Set Warnings "-register-all".
Open Scope Z_scope.

(** ** Exceptions *)

Inductive exn :=
  | ValueError (msg : string)      (* raise ValueError("...") *)
  | JSONDecodeError                (* json.loads: a subclass of ValueError *)
  | RuntimeError (msg : string)    (* run(): non-zero exit status *)
  | TimeoutExpired                 (* subprocess.run(..., timeout=...) *)
  | UnicodeDecodeError             (* text=True on output that does not decode:
                                      a subclass of ValueError *)
  | OSError                        (* subprocess.run: the command cannot be started *)
  | AttributeError                 (* method missing on the value at hand *)
  | TypeError                      (* operand of the wrong type *)
  | IndexError                     (* list index out of range *)
  | OverflowError.                 (* datetime.fromtimestamp out of range *)

(** [except ValueError] in the request handler: the client-error class. *)
Definition is_value_error (e : exn) : bool :=
  match e with
  | ValueError _ | JSONDecodeError | UnicodeDecodeError => true
  | _ => false
  end.

Definition exc (A : Type) : Type := (exn + A)%type.

#[global] Instance exc_ret : MRet exc := fun _ a => inr a.
#[global] Instance exc_bind : MBind exc := fun _ _ f m =>
  match m with inl e => inl e | inr a => f a end.

(** ** JSON values as [json.loads] builds them *)

Inductive json :=
  | JNull
  | JBool (b : bool)
  | JInt (n : Z)
  | JFloat (f : spec_float)
  | JStr (s : string)
  | JArr (xs : list json)
  | JObj (kvs : list (string * json)).

(** Python truth value: [bool(v)]. *)
Definition truthy (v : json) : bool :=
  match v with
  | JNull => false
  | JBool b => b
  | JInt n => negb (n =? 0)
  | JFloat (S754_zero _) => false
  | JFloat _ => true
  | JStr s => negb (String.eqb s "")
  | JArr xs => match xs with [] => false | _ => true end
  | JObj kvs => match kvs with [] => false | _ => true end
  end.

(** A JSON object with a repeated key keeps the last value. *)
Fixpoint assoc_last (k : string) (kvs : list (string * json)) : option json :=
  match kvs with
  | [] => None
  | (k', v) :: rest =>
      match assoc_last k rest with
      | Some v' => Some v'
      | None => if String.eqb k' k then Some v else None
      end
  end.

(** [e.get(k)]: only a dict has the method. *)
Definition py_get (e : json) (k : string) : exc json :=
  match e with
  | JObj kvs => inr (default JNull (assoc_last k kvs))
  | _ => inl AttributeError
  end.

(** ** The library interface *)

Class PyText := {
  str_lower : string -> string;                    (* s.lower() *)
  str_strip : string -> string;                    (* s.strip() *)
  str_splitlines : string -> list string;          (* s.splitlines() *)
  str_split : nat -> string -> list string;        (* s.split(None, n) *)
  int_of_str : string -> option Z;                 (* int(s); None: ValueError *)
  isoformat_utc : Z -> exc string                  (* fromtimestamp(ms / 1000, utc).isoformat() *)
}.

(** ** String tests that are exact on UTF-8 bytes *)

(** [needle in s] *)
Fixpoint contains (needle s : string) : bool :=
  String.prefix needle s ||
  match s with
  | EmptyString => false
  | String _ rest => contains needle rest
  end.

(** [s.startswith(p)] *)
Definition startswith (p s : string) : bool := String.prefix p s.

(** [s.endswith(suffix)] *)
Fixpoint endswith (suffix s : string) : bool :=
  String.eqb s suffix ||
  match s with
  | EmptyString => false
  | String _ rest => endswith suffix rest
  end.

Fixpoint string_forallb (p : ascii -> bool) (s : string) : bool :=
  match s with
  | EmptyString => true
  | String c rest => p c && string_forallb p rest
  end.

Definition between (lo hi : N) (c : ascii) : bool :=
  ((lo <=? N_of_ascii c) && (N_of_ascii c <=? hi))%N.

(** The class [[A-Za-z0-9:._@\-]] of [UNIT_RE]. *)
Definition unit_char (c : ascii) : bool :=
  between 65 90 c || between 97 122 c || between 48 57 c ||
  (N_of_ascii c =? 58)%N || (N_of_ascii c =? 46)%N || (N_of_ascii c =? 95)%N ||
  (N_of_ascii c =? 64)%N || (N_of_ascii c =? 45)%N.

(** [UNIT_RE.fullmatch(s)] for [^[A-Za-z0-9:._@\-]+$]. *)
Definition UNIT_RE (s : string) : bool :=
  negb (String.eqb s "") && string_forallb unit_char s.

(** The class [[0-9a-f]] of [INVOCATION_RE]. *)
Definition hex_char (c : ascii) : bool :=
  between 48 57 c || between 97 102 c.

(** [INVOCATION_RE.fullmatch(s)] for [^[0-9a-f]{32}$]. *)
Definition INVOCATION_RE (s : string) : bool :=
  (String.length s =? 32)%nat && string_forallb hex_char s.

(** [pattern.fullmatch(v)]: a [TypeError] unless [v] is a string. *)
Definition fullmatch (re : string -> bool) (v : json) : exc bool :=
  match v with
  | JStr s => inr (re s)
  | _ => inl TypeError
  end.

(** The guard every entry point opens with:
    [not unit or len(unit) > 200 or not UNIT_RE.fullmatch(unit)]. *)
Definition invalid_unit (unit : string) : bool :=
  String.eqb unit "" || (200 <? Z.of_nat (String.length unit)) || negb (UNIT_RE unit).

(** ** Numbers *)

(** [int(f)] on a float: truncation toward zero; NaN and the infinities
    raise. *)
Definition float_to_int (f : spec_float) : option Z :=
  match f with
  | S754_zero _ => Some 0
  | S754_finite s m e =>
      let mag := Z.shiftl (Z.pos m) e in
      Some (if s then - mag else mag)
  | S754_infinity _ | S754_nan => None
  end.

(** [int(v)] under [except Exception]: [None] stands for any exception. *)
Definition py_int `{PyText} (v : json) : option Z :=
  match v with
  | JBool b => Some (if b then 1 else 0)
  | JInt n => Some n
  | JFloat f => float_to_int f
  | JStr s => int_of_str s
  | JNull | JArr _ | JObj _ => None
  end.

Definition usec_to_ms `{PyText} (v : json) : option Z :=
  match py_int v with
  | None => None
  | Some n => if n <=? 0 then None else Some (n / 1000)
  end.

Definition ms_to_iso `{PyText} (ms : option Z) : exc (option string) :=
  match ms with
  | None => inr None
  | Some n => s ← isoformat_utc n; mret (Some s)
  end.

(** ** The status rule of [list_runs] *)

Inductive status := Unknown | Success | Failed.

#[global] Instance status_eq_dec : EqDecision status.
Proof. solve_decision. Defined.

(** The text [status] is reported as. *)
Definition status_name (s : status) : string :=
  match s with Unknown => "unknown" | Success => "success" | Failed => "failed" end.

(** [(msg or "").lower()] *)
Definition message_text `{PyText} (msg : json) : exc string :=
  if truthy msg then
    match msg with
    | JStr s => inr (str_lower s)
    | _ => inl AttributeError
    end
  else inr (str_lower "").

Definition classify (prev : status) (m : string) : status :=
  if contains "failed" m || contains "error" m || contains "exited" m then Failed
  else if contains "deactivated successfully" m || startswith "finished " m then
    (if decide (prev = Failed) then prev else Success)
  else prev.

Definition upd_status `{PyText} (prev : status) (msg : json) : exc status :=
  m ← message_text msg; mret (classify prev m).

(** The statuses of a run after each of its messages, in order. *)
Fixpoint fold_status `{PyText} (prev : status) (msgs : list json) : exc status :=
  match msgs with
  | [] => inr prev
  | msg :: rest => s ← upd_status prev msg; fold_status s rest
  end.

(** A message the rule can read: absent, empty, or text. *)
Definition is_text (msg : json) : bool :=
  match msg with
  | JStr _ => true
  | _ => negb (truthy msg)
  end.

(** ** Discovery: the first loop of [list_runs] *)

(** A line of [journalctl -o json] output as the loops see it: [not line],
    [json.loads(line)] raising, or the value it returns. *)
Inductive jline :=
  | Blank
  | Unparseable
  | Parsed (e : json).

(** [inv = e.get("INVOCATION_ID")] and the guard
    [if not inv or not INVOCATION_RE.fullmatch(inv): continue]:
    the identifier a record contributes, if any. *)
Definition invocation_of (e : json) : exc (option string) :=
  inv ← py_get e "INVOCATION_ID";
  if negb (truthy inv) then inr None else
  ok ← fullmatch INVOCATION_RE inv;
  inr (match inv, ok with
       | JStr id, true => Some id
       | _, _ => None
       end).

(** The loop over [scan.splitlines()], with [inv_ids] and [inv_set] as it
    finds them on entry; [break] returns at once. *)
Fixpoint discover (limit : Z) (lines : list jline)
    (inv_ids : list string) (inv_set : gset string) : exc (list string) :=
  match lines with
  | [] => inr inv_ids
  | Blank :: rest | Unparseable :: rest => discover limit rest inv_ids inv_set
  | Parsed e :: rest =>
      inv ← invocation_of e;
      match inv with
      | None => discover limit rest inv_ids inv_set
      | Some id =>
          if decide (id ∈ inv_set) then discover limit rest inv_ids inv_set else
          let inv_set' := {[id]} ∪ inv_set in
          let inv_ids' := inv_ids ++ [id] in
          if Z.of_nat (length inv_ids') >=? limit then inr inv_ids'
          else discover limit rest inv_ids' inv_set'
      end
  end.

(** ** Aggregation: the second loop of [list_runs] *)

Record run_acc := {
  start_ms : option Z;
  end_ms : option Z;
  run_status : status;
  cpu_usage : option Z
}.

Definition run_acc0 : run_acc :=
  {| start_ms := None; end_ms := None; run_status := Unknown; cpu_usage := None |}.

(** [x if cur is None else f(cur, x)] *)
Definition merge_opt (f : Z -> Z -> Z) (cur : option Z) (x : Z) : Z :=
  match cur with None => x | Some c => f c x end.

(** The body of the loop over [raw.splitlines()] for one parsed record. *)
Definition aggregate_record `{PyText} (a : run_acc) (e : json) : exc run_acc :=
  ts ← py_get e "__REALTIME_TIMESTAMP";
  let ts_ms := usec_to_ms ts in
  let start := match ts_ms with
               | Some t => Some (merge_opt Z.min (start_ms a) t)
               | None => start_ms a
               end in
  let stop := match ts_ms with
              | Some t => Some (merge_opt Z.max (end_ms a) t)
              | None => end_ms a
              end in
  cpu ← py_get e "CPU_USAGE_NSEC";
  let cpu_n := match cpu with JNull => None | _ => py_int cpu end in
  let usage := match cpu_n with
               | Some c => Some (merge_opt Z.max (cpu_usage a) c)
               | None => cpu_usage a
               end in
  msg ← py_get e "MESSAGE";
  st ← upd_status (run_status a) msg;
  mret {| start_ms := start; end_ms := stop; run_status := st; cpu_usage := usage |}.

Fixpoint aggregate `{PyText} (a : run_acc) (lines : list jline) : exc run_acc :=
  match lines with
  | [] => inr a
  | Blank :: rest | Unparseable :: rest => aggregate a rest
  | Parsed e :: rest => a' ← aggregate_record a e; aggregate a' rest
  end.

(** One element of ["runs"]. *)
Record run_summary := {
  invocationId : string;
  startMs : option Z;
  startIso : option string;
  endMs : option Z;
  endIso : option string;
  durationMs : option Z;
  run_state : status;
  cpuUsageNsec : option Z
}.

Definition duration_of (start stop : option Z) : option Z :=
  match start, stop with
  | Some s, Some e => Some (e - s)
  | _, _ => None
  end.

(** The dictionary appended to [runs] once the records are folded. *)
Definition summarize `{PyText} (inv : string) (a : run_acc) : exc run_summary :=
  let duration_ms := duration_of (start_ms a) (end_ms a) in
  start_iso ← ms_to_iso (start_ms a);
  end_iso ← ms_to_iso (end_ms a);
  mret {| invocationId := inv;
          startMs := start_ms a; startIso := start_iso;
          endMs := end_ms a; endIso := end_iso;
          durationMs := duration_ms;
          run_state := run_status a;
          cpuUsageNsec := cpu_usage a |}.

Definition summarize_run `{PyText} (inv : string) (raw : list jline) : exc run_summary :=
  a ← aggregate run_acc0 raw; summarize inv a.

(** ** External commands *)

(** One constructor per [run([...])] call site. *)
Inductive cmd :=
  | ListUnitFiles
  | ListUnits
  | ListTargets
  | ListTimers
  | JournalScan (log_unit : string)
  | JournalInvocation (log_unit inv : string)
  | JournalCat (log_unit inv : string) (limit : Z)
  | ListDependencies (t : string)
  | ShowUnit (unit : string)
  | CatUnit (unit : string).

(** [str(n)] for an integer. *)
Definition str_of_Z (n : Z) : string := NilZero.string_of_int (Z.to_int n).

(** The argument vector handed to [subprocess.run]. *)
Definition argv (c : cmd) : list string :=
  match c with
  | ListUnitFiles =>
      ["systemctl"; "list-unit-files"; "--no-pager"; "--no-legend"]
  | ListUnits =>
      ["systemctl"; "list-units"; "--all"; "--no-pager"; "--no-legend"]
  | ListTargets =>
      ["systemctl"; "list-units"; "--type=target"; "--all"; "--no-pager"; "--no-legend"]
  | ListTimers =>
      ["systemctl"; "list-timers"; "--all"; "--no-pager"; "--output=json"]
  | JournalScan log_unit =>
      ["journalctl"; "--unit=" +:+ log_unit; "-n"; "20000"; "--no-pager"; "-o"; "json"]
  | JournalInvocation log_unit inv =>
      ["journalctl"; "--unit=" +:+ log_unit; "INVOCATION_ID=" +:+ inv;
       "--no-pager"; "-o"; "json"]
  | JournalCat log_unit inv limit =>
      ["journalctl"; "--unit=" +:+ log_unit; "INVOCATION_ID=" +:+ inv;
       "-n"; str_of_Z limit; "--no-pager"; "-o"; "cat"]
  | ListDependencies t =>
      ["systemctl"; "list-dependencies"; "--all"; "--plain"; "--no-pager";
       "--no-legend"; "--"; t]
  | ShowUnit unit =>
      ["systemctl"; "show"; "--no-pager"; "-p"; "Id"; "-p"; "Description";
       "-p"; "LoadState"; "-p"; "ActiveState"; "-p"; "SubState";
       "-p"; "UnitFileState"; "-p"; "FragmentPath"; "-p"; "DropInPaths";
       "-p"; "Documentation"; "-p"; "After"; "-p"; "Requires"; "-p"; "Wants";
       "--"; unit]
  | CatUnit unit =>
      ["systemctl"; "cat"; "--no-pager"; "--"; unit]
  end.

(** The unit names a command line carries. *)
Definition cmd_units (c : cmd) : list string :=
  match c with
  | JournalScan u | JournalInvocation u _ | JournalCat u _ _
  | ListDependencies u | ShowUnit u | CatUnit u => [u]
  | _ => []
  end.

(** The invocation identifiers a command line carries. *)
Definition cmd_invocations (c : cmd) : list string :=
  match c with
  | JournalInvocation _ inv | JournalCat _ inv _ => [inv]
  | _ => []
  end.

(** One element of the array [systemctl list-timers --output=json] prints:
    a unit name or null, and whatever stands under the other keys. *)
Record raw_timer := {
  rt_unit : option string;
  rt_activates : json;
  rt_next : json;
  rt_last : json
}.

(** What the caller makes of a command's standard output: the text itself,
    the lines of a JSON stream, or the document [json.loads] returns
    ([None] when it raises). *)
Definition answer (c : cmd) : Type :=
  match c with
  | ListTimers => option (list raw_timer)
  | JournalScan _ | JournalInvocation _ _ => list jline
  | _ => string
  end.

(** How a command ends: exit status 0 with its output, another status with
    what it wrote, the timeout, output that the text mode of
    [subprocess.run] cannot decode, or a program that cannot be started. *)
Inductive reply (R : Type) :=
  | Exit0 (out : R)
  | ExitErr (stderr stdout : string)
  | TimedOut
  | Undecodable
  | NotStarted.
Arguments Exit0 {R} out.
Arguments ExitErr {R} stderr stdout.
Arguments TimedOut {R}.
Arguments Undecodable {R}.
Arguments NotStarted {R}.

Definition trace := list cmd.

(** The host: its answer may depend on the commands already issued. *)
Definition world := trace -> forall c : cmd, reply (answer c).

(** Computations that run commands: the trace of commands issued so far is
    threaded through, and survives an exception. *)
Definition M (A : Type) : Type := trace -> exc A * trace.

#[global] Instance M_ret : MRet M := fun _ a tr => (inr a, tr).
#[global] Instance M_bind : MBind M := fun _ _ f m tr =>
  match m tr with
  | (inl e, tr') => (inl e, tr')
  | (inr a, tr') => f a tr'
  end.

Definition raise {A} (e : exn) : M A := fun tr => (inl e, tr).

(** A computation without commands, inside [M]. *)
Definition lift {A} (x : exc A) : M A := fun tr => (x, tr).

(** ** Sorting as [list.sort(key=...)] does: stably *)

Fixpoint insert_by {A} (le : A -> A -> bool) (x : A) (l : list A) : list A :=
  match l with
  | [] => [x]
  | y :: rest => if le x y then x :: l else y :: insert_by le x rest
  end.

Definition sort_by {A} (le : A -> A -> bool) (l : list A) : list A :=
  foldr (insert_by le) [] l.

Definition sort_on {A K} (le : K -> K -> bool) (key : A -> K) (l : list A) : list A :=
  sort_by (fun x y => le (key x) (key y)) l.

(** Order of the tuples [(x.get("nextMs") is None, x.get("nextMs") or 0)]. *)
Definition key_le (k1 k2 : bool * Z) : bool :=
  match k1, k2 with
  | (false, _), (true, _) => true
  | (true, _), (false, _) => false
  | (_, a), (_, b) => a <=? b
  end.

(** ** Timers and schedules *)

(** One dictionary of the list [list_timers] returns. *)
Record timer := {
  t_timer : option string;
  t_activates : json;
  t_nextMs : option Z;
  t_nextIso : option string;
  t_lastMs : option Z;
  t_lastIso : option string
}.

Definition build_timer `{PyText} (it : raw_timer) : exc timer :=
  let next_ms := usec_to_ms (rt_next it) in
  let last_ms := usec_to_ms (rt_last it) in
  next_iso ← ms_to_iso next_ms;
  last_iso ← ms_to_iso last_ms;
  mret {| t_timer := rt_unit it; t_activates := rt_activates it;
          t_nextMs := next_ms; t_nextIso := next_iso;
          t_lastMs := last_ms; t_lastIso := last_iso |}.

(** [x.get("timer") or ""] *)
Definition timer_key (t : timer) : string := default "" (t_timer t).

(** [(x.get("nextMs") is None, x.get("nextMs") or 0)] *)
Definition next_key (t : timer) : bool * Z :=
  match t_nextMs t with
  | None => (true, 0)
  | Some ms => (false, ms)
  end.

(** [{t.get("timer"): t for t in timers if t.get("timer")}] *)
Definition index_timers (timers : list timer) : gmap string timer :=
  foldl (fun m t =>
           match t_timer t with
           | Some name => if String.eqb name "" then m else <[name := t]> m
           | None => m
           end) ∅ timers.

(** [v == unit] for a JSON value and a string. *)
Definition json_is_str (v : json) (s : string) : bool :=
  match v with
  | JStr x => String.eqb x s
  | _ => false
  end.

Inductive kind := KTimer | KService | KOther.

(** The keys next to ["unit"] and ["kind"]; a unit of kind [other] has none. *)
Record schedule_fields := {
  f_timer : option string;
  f_activates : json;
  f_nextMs : option Z;
  f_nextIso : option string;
  f_lastMs : option Z;
  f_lastIso : option string
}.

Record schedule := {
  s_unit : string;
  s_kind : kind;
  s_fields : option schedule_fields
}.

(** The timer branch of [schedule_for_unit]. *)
Definition timer_schedule (unit : string) (t : option timer) : schedule :=
  {| s_unit := unit; s_kind := KTimer;
     s_fields := Some {| f_timer := Some unit;
                         f_activates := from_option t_activates JNull t;
                         f_nextMs := t ≫= t_nextMs;
                         f_nextIso := t ≫= t_nextIso;
                         f_lastMs := t ≫= t_lastMs;
                         f_lastIso := t ≫= t_lastIso |} |}.

(** [candidates] after [candidates.sort(...)]. *)
Definition candidates_for (unit : string) (timers : list timer) : list timer :=
  sort_on key_le next_key
    (List.filter (fun t => json_is_str (t_activates t) unit) timers).

(** The service branch of [schedule_for_unit]. *)
Definition service_schedule (unit : string) (t : option timer) : schedule :=
  {| s_unit := unit; s_kind := KService;
     s_fields := Some {| f_timer := t ≫= t_timer;
                         f_activates := JStr unit;
                         f_nextMs := t ≫= t_nextMs;
                         f_nextIso := t ≫= t_nextIso;
                         f_lastMs := t ≫= t_lastMs;
                         f_lastIso := t ≫= t_lastIso |} |}.

Definition other_schedule (unit : string) : schedule :=
  {| s_unit := unit; s_kind := KOther; s_fields := None |}.

(** Everything [schedule_for_unit] does once it holds [timers]. *)
Definition schedule_of (unit : string) (timers : list timer) : schedule :=
  let by_timer := index_timers timers in
  if endswith ".timer" unit then timer_schedule unit (by_timer !! unit)
  else if endswith ".service" unit then
    service_schedule unit (head (candidates_for unit timers))
  else other_schedule unit.

(** [s.get("activates")] on a schedule. *)
Definition schedule_activates (s : schedule) : json :=
  from_option f_activates JNull (s_fields s).

(** The test [a and isinstance(a, str) and UNIT_RE.fullmatch(a)] of
    [resolve_log_unit]: the name to use instead of the timer's, if any. *)
Definition activated_unit (a : json) : option string :=
  match a with
  | JStr x => if truthy a && UNIT_RE x then Some x else None
  | _ => None
  end.

(** ** The unit catalog *)

(** A row of [parse_units]. *)
Record unit_row := {
  r_load : string;
  r_active : string;
  r_sub : string;
  r_description : string
}.

(** A merged record of [list_units]; a key the sources did not give is
    absent. *)
Record unit_item := {
  u_unit : string;
  u_unitFileState : option string;
  u_loadState : option string;
  u_activeState : option string;
  u_subState : option string;
  u_description : option string
}.

Definition parse_unit_files `{PyText} (text : string) : gmap string string :=
  foldl (fun out line =>
           let s := str_strip line in
           if String.eqb s "" then out else
           match str_split 1 s with
           | [unit; state] => <[unit := state]> out
           | _ => out
           end) ∅ (str_splitlines text).

Definition parse_units `{PyText} (text : string) : gmap string unit_row :=
  foldl (fun out line =>
           let s := str_strip line in
           if String.eqb s "" then out else
           match str_split 4 s with
           | unit :: load :: active :: sub :: more =>
               let desc := match more with [d] => d | _ => "" end in
               <[unit := {| r_load := load; r_active := active;
                            r_sub := sub; r_description := desc |}]> out
           | _ => out
           end) ∅ (str_splitlines text).

(** [item = {"unit": unit}] updated from [a] and from [b]. *)
Definition merge_unit (a : gmap string string) (b : gmap string unit_row)
    (unit : string) : unit_item :=
  {| u_unit := unit;
     u_unitFileState := a !! unit;
     u_loadState := r_load <$> b !! unit;
     u_activeState := r_active <$> b !! unit;
     u_subState := r_sub <$> b !! unit;
     u_description := r_description <$> b !! unit |}.

(** ** Pieces of text *)

(** [s] without the prefix [p], when it has it. *)
Fixpoint drop_prefix (p s : string) : option string :=
  match p, s with
  | EmptyString, _ => Some s
  | String a p', String b s' => if Ascii.eqb a b then drop_prefix p' s' else None
  | String _ _, EmptyString => None
  end.

(** The characters of [" \t●○*├└│─"], each as its UTF-8 bytes. *)
Definition tree_marks : list string :=
  [" "; String "009" ""; "●"; "○"; "*"; "├"; "└"; "│"; "─"].

Fixpoint lstrip_fuel (fuel : nat) (marks : list string) (s : string) : string :=
  match fuel with
  | O => s
  | S fuel' =>
      match list_find (fun m => is_Some (drop_prefix m s)) (List.filter (fun m => negb (String.eqb m "")) marks) with
      | Some (_, m) => lstrip_fuel fuel' marks (default s (drop_prefix m s))
      | None => s
      end
  end.

(** [s.lstrip(chars)] *)
Definition lstrip (marks : list string) (s : string) : string :=
  lstrip_fuel (String.length s) marks s.

(** [k, v = line.split("=", 1)], for a line that holds ["="]. *)
Fixpoint split_eq (line : string) : option (string * string) :=
  match line with
  | EmptyString => None
  | String c rest =>
      if Ascii.eqb c "="%char then Some (EmptyString, rest)
      else '(k, v) ← split_eq rest; Some (String c k, v)
  end.

Record unit_info := {
  d_unit : string;
  d_properties : gmap string string;
  d_cat : string
}.

(** The loop over [deps.splitlines()] in [units_for_targets]. *)
Fixpoint dep_units `{PyText} (lines : list string) (wanted : gset string)
    : exc (gset string) :=
  match lines with
  | [] => inr wanted
  | line :: rest =>
      let s := lstrip tree_marks line in
      if String.eqb s "" then dep_units rest wanted else
      match str_split 1 s with
      | [] => inl IndexError
      | u :: _ => dep_units rest (if UNIT_RE u then {[u]} ∪ wanted else wanted)
      end
  end.

(** ** The functions of [server.py] that talk to the host *)

Section Backend.
Context `{PyText} (w : world).

(** [run(cmd, timeout)]: the command is issued, then its outcome read.  The
    last three outcomes are exceptions of [subprocess.run] itself, which
    [run] lets through. *)
Definition run (c : cmd) : M (answer c) := fun tr =>
  (match w tr c with
   | Exit0 out => inr out
   | ExitErr stderr stdout =>
       let msg := str_strip (if String.eqb stderr "" then stdout else stderr) in
       inl (RuntimeError
              (if String.eqb msg ""
               then "command failed: " +:+ String.concat " " (argv c)
               else msg))
   | TimedOut => inl TimeoutExpired
   | Undecodable => inl UnicodeDecodeError
   | NotStarted => inl OSError
   end, tr ++ [c]).

Definition list_units : M (list unit_item) :=
  unit_files ← run ListUnitFiles;
  units ← run ListUnits;
  let a := parse_unit_files unit_files in
  let b := parse_units units in
  let items := merge_unit a b <$> elements (dom a ∪ dom b) in
  mret (sort_on String.leb u_unit items).

Definition list_targets : M (list unit_item) :=
  targets ← run ListTargets;
  let b := parse_units targets in
  let items := merge_unit ∅ b <$> elements (dom b) in
  mret (sort_on String.leb u_unit items).

Definition list_timers : M (list timer) :=
  out ← run ListTimers;
  match out with
  | None => raise JSONDecodeError
  | Some items =>
      res ← lift (mapM build_timer items);
      mret (sort_on String.leb timer_key res)
  end.

Definition schedule_for_unit (unit : string) : M schedule :=
  if invalid_unit unit then raise (ValueError "invalid unit") else
  timers ← list_timers;
  mret (schedule_of unit timers).

Definition resolve_log_unit (unit : string) : M string :=
  if endswith ".timer" unit then
    s ← schedule_for_unit unit;
    mret (default unit (activated_unit (schedule_activates s)))
  else mret unit.

(** One round of the loop [for inv in inv_ids]. *)
Definition fetch_run (log_unit inv : string) : M run_summary :=
  raw ← run (JournalInvocation log_unit inv);
  lift (summarize_run inv raw).

Definition list_runs (unit : string) (limit : Z) : M (string * list run_summary) :=
  if invalid_unit unit then raise (ValueError "invalid unit") else
  if (limit <? 1) || (50 <? limit) then raise (ValueError "invalid limit") else
  log_unit ← resolve_log_unit unit;
  scan ← run (JournalScan log_unit);
  inv_ids ← lift (discover limit scan [] ∅);
  runs ← mapM (fetch_run log_unit) inv_ids;
  mret (log_unit, runs).

Definition logs_for_invocation (unit invocation_id : string) (limit : Z) : M string :=
  if invalid_unit unit then raise (ValueError "invalid unit") else
  if String.eqb invocation_id "" || negb (INVOCATION_RE invocation_id)
  then raise (ValueError "invalid invocation") else
  if (limit <? 1) || (5000 <? limit) then raise (ValueError "invalid limit") else
  log_unit ← resolve_log_unit unit;
  run (JournalCat log_unit invocation_id limit).

(** The guard of the loop over [targets]: the names it passes over. *)
Definition skipped_target (t : string) : bool :=
  invalid_unit t || negb (endswith ".target" t).

(** The loop [for t in targets] that fills [wanted]. *)
Fixpoint collect_wanted (targets : list string) (wanted : gset string)
    : M (gset string) :=
  match targets with
  | [] => mret wanted
  | t :: rest =>
      if skipped_target t then collect_wanted rest wanted else
      deps ← run (ListDependencies t);
      wanted' ← lift (dep_units (str_splitlines deps) ({[t]} ∪ wanted));
      collect_wanted rest wanted'
  end.

Definition units_for_targets (targets : list string) : M (list unit_item) :=
  match targets with
  | [] => list_units
  | _ =>
      wanted ← collect_wanted targets ∅;
      if decide (wanted = ∅) then list_units else
      items ← list_units;
      mret (List.filter (fun u => bool_decide (u_unit u ∈ wanted)) items)
  end.

Definition unit_detail (unit : string) : M unit_info :=
  if invalid_unit unit then raise (ValueError "invalid unit") else
  props_out ← run (ShowUnit unit);
  let props := foldl (fun props line =>
                        match split_eq line with
                        | Some (k, v) => <[k := v]> props
                        | None => props
                        end) ∅ (str_splitlines props_out) in
  cat_out ← run (CatUnit unit);
  mret {| d_unit := unit; d_properties := props; d_cat := cat_out |}.

End Backend.

(** ** The library interface on ASCII text *)

Module AsciiText.

(** [c.isspace()] for a character below 128. *)
Definition is_space (c : ascii) : bool :=
  between 9 13 c || between 28 32 c.

(** The line boundaries of [splitlines] below 128. *)
Definition is_linebreak (c : ascii) : bool :=
  between 10 13 c || between 28 30 c.

Definition lower_char (c : ascii) : ascii :=
  if between 65 90 c then ascii_of_N (N_of_ascii c + 32) else c.

Fixpoint lower (s : string) : string :=
  match s with
  | EmptyString => EmptyString
  | String c rest => String (lower_char c) (lower rest)
  end.

Fixpoint lstrip_space (s : string) : string :=
  match s with
  | String c rest => if is_space c then lstrip_space rest else s
  | EmptyString => EmptyString
  end.

Definition strip (s : string) : string :=
  String.rev (lstrip_space (String.rev (lstrip_space s))).

Fixpoint splitlines_go (cur : string) (s : string) : list string :=
  match s with
  | EmptyString => if String.eqb cur "" then [] else [String.rev cur]
  | String c rest =>
      if is_linebreak c then
        String.rev cur ::
          match rest with
          | String c' rest' =>
              if Ascii.eqb c "013" && Ascii.eqb c' "010"
              then splitlines_go "" rest'
              else splitlines_go "" rest
          | EmptyString => []
          end
      else splitlines_go (String c cur) rest
  end.

Definition splitlines (s : string) : list string := splitlines_go "" s.

(** The first word of [s] and what follows it. *)
Fixpoint word (s : string) : string * string :=
  match s with
  | EmptyString => (EmptyString, EmptyString)
  | String c rest =>
      if is_space c then (EmptyString, s)
      else let '(wd, tl) := word rest in (String c wd, tl)
  end.

Fixpoint split_fuel (fuel maxsplit : nat) (s : string) : list string :=
  let s' := lstrip_space s in
  if String.eqb s' "" then [] else
  match fuel, maxsplit with
  | O, _ => [s']
  | _, O => [s']
  | S fuel', S maxsplit' =>
      let '(wd, tl) := word s' in wd :: split_fuel fuel' maxsplit' tl
  end.

Definition split (maxsplit : nat) (s : string) : list string :=
  split_fuel (String.length s) maxsplit s.

Definition digit (c : ascii) : option Z :=
  if between 48 57 c then Some (Z.of_N (N_of_ascii c) - 48) else None.

(** Digits with single underscores between them. *)
Fixpoint digits (acc : Z) (after_underscore : bool) (s : string) : option Z :=
  match s with
  | EmptyString => if after_underscore then None else Some acc
  | String c rest =>
      if Ascii.eqb c "_" then
        if after_underscore then None else digits acc true rest
      else d ← digit c; digits (acc * 10 + d) false rest
  end.

Definition unsigned (s : string) : option Z :=
  match s with
  | String c _ => _ ← digit c; digits 0 false s
  | EmptyString => None
  end.

(** The blanks [int()] passes over around an ASCII numeral: those of C's
    [isspace], which leaves out the separators 28 to 31. *)
Definition is_int_space (c : ascii) : bool :=
  between 9 13 c || between 32 32 c.

Fixpoint lstrip_int (s : string) : string :=
  match s with
  | String c rest => if is_int_space c then lstrip_int rest else s
  | EmptyString => EmptyString
  end.

Definition to_int (s : string) : option Z :=
  match String.rev (lstrip_int (String.rev (lstrip_int s))) with
  | String "-" body => Z.opp <$> unsigned body
  | String "+" body => unsigned body
  | body => unsigned body
  end.

(** [n] in decimal, padded with zeros to [width] digits. *)
Definition padded (width : nat) (n : Z) : string :=
  let s := str_of_Z n in
  String.concat "" (replicate (width - String.length s)%nat "0") +:+ s.

(** The civil date of a day count from 1970-01-01. *)
Definition civil (days : Z) : Z * Z * Z :=
  let z := days + 719468 in
  let era := z / 146097 in
  let doe := z - era * 146097 in
  let yoe := (doe - doe / 1460 + doe / 36524 - doe / 146096) / 365 in
  let doy := doe - (365 * yoe + yoe / 4 - yoe / 100) in
  let mp := (5 * doy + 2) / 153 in
  let d := doy - (153 * mp + 2) / 5 + 1 in
  let m := if mp <? 10 then mp + 3 else mp - 9 in
  let y := yoe + era * 400 + (if m <=? 2 then 1 else 0) in
  (y, m, d).

(** The text of a UTC instant given in milliseconds, exact for the instants
    before 2^33 seconds, where [ms / 1000.0] rounds to the microsecond
    written here.  Years after 9999 are out of [datetime]'s range: the
    error stands for the one raised there, whose text names the year and
    whose class is [OSError] or [OverflowError] beyond the range of the
    platform's clock. *)
Definition isoformat (ms : Z) : exc string :=
  if (ms <? 0) || (253402300799999 <? ms) then inl (ValueError "year out of range") else
  let secs := ms / 1000 in
  let '(y, m, d) := civil (secs / 86400) in
  let tod := secs mod 86400 in
  let us := (ms mod 1000) * 1000 in
  inr (padded 4 y +:+ "-" +:+ padded 2 m +:+ "-" +:+ padded 2 d +:+ "T" +:+
       padded 2 (tod / 3600) +:+ ":" +:+ padded 2 (tod mod 3600 / 60) +:+ ":" +:+
       padded 2 (tod mod 60) +:+
       (if us =? 0 then "" else "." +:+ padded 6 us) +:+ "+00:00").

End AsciiText.

#[global] Instance ascii_text : PyText := {|
  str_lower := AsciiText.lower;
  str_strip := AsciiText.strip;
  str_splitlines := AsciiText.splitlines;
  str_split := AsciiText.split;
  int_of_str := AsciiText.to_int;
  isoformat_utc := AsciiText.isoformat
|}.

(** ** Vocabulary of the statements *)

(** The distinct elements of a list in the order of their first
    occurrences. *)
Fixpoint nub (l : list string) : list string :=
  match l with
  | [] => []
  | x :: rest => x :: filter (fun y => y ≠ x) (nub rest)
  end.

(** A journal record as the data model has it: an object whose invocation
    identifier is absent, empty or a text. *)
Definition journal_record (e : json) : bool :=
  match e with
  | JObj kvs => is_text (default JNull (assoc_last "INVOCATION_ID" kvs))
  | _ => false
  end.

Definition scan_line_ok (line : jline) : bool :=
  match line with
  | Parsed e => journal_record e
  | Blank | Unparseable => true
  end.

(** The well-formed identifier a line carries, if any. *)
Definition line_id (line : jline) : option string :=
  match line with
  | Parsed (JObj kvs) =>
      match default JNull (assoc_last "INVOCATION_ID" kvs) with
      | JStr id => if INVOCATION_RE id then Some id else None
      | _ => None
      end
  | _ => None
  end.

(** The well-formed identifiers of a scan, in store order, with repeats. *)
Definition scan_ids (lines : list jline) : list string := omap line_id lines.

(** The fields of a record the aggregation reads. *)
Definition record_field (k : string) (line : jline) : option json :=
  match line with
  | Parsed (JObj kvs) => Some (default JNull (assoc_last k kvs))
  | _ => None
  end.

(** The millisecond timestamps of the records that have a parseable one. *)
Definition timestamps `{PyText} (lines : list jline) : list Z :=
  omap (fun line => record_field "__REALTIME_TIMESTAMP" line ≫= usec_to_ms) lines.

(** The CPU-usage samples of the records that carry a numeric one. *)
Definition cpu_samples `{PyText} (lines : list jline) : list Z :=
  omap (fun line => record_field "CPU_USAGE_NSEC" line ≫= py_int) lines.

(** The messages of the records, in order. *)
Definition messages (lines : list jline) : list json :=
  omap (record_field "MESSAGE") lines.

(** [m] is the least element of [l]; no element when [l] is empty. *)
Definition is_minimum (m : option Z) (l : list Z) : Prop :=
  match m with
  | None => l = []
  | Some x => x ∈ l ∧ ∀ y, y ∈ l → x ≤ y
  end.

Definition is_maximum (m : option Z) (l : list Z) : Prop :=
  match m with
  | None => l = []
  | Some x => x ∈ l ∧ ∀ y, y ∈ l → y ≤ x
  end.

(** Order on reported counters: nothing reported is below everything. *)
Definition counter_le (a b : option Z) : Prop :=
  match a, b with
  | None, _ => True
  | Some x, Some y => x ≤ y
  | Some _, None => False
  end.

(** [a] fires no later than [b]; a timer without a next fire comes last. *)
Definition fires_no_later (a b : option Z) : Prop :=
  match a, b with
  | Some x, Some y => x ≤ y
  | Some _, None => True
  | None, None => True
  | None, Some _ => False
  end.

(** The keys a schedule reports when it found no timer. *)
Definition no_schedule (f : schedule_fields) : Prop :=
  f_timer f = None ∧ f_nextMs f = None ∧ f_nextIso f = None ∧
  f_lastMs f = None ∧ f_lastIso f = None.

(** The duration is there exactly when both ends are; it is their
    difference, and not negative. *)
Definition duration_ok (r : run_summary) : Prop :=
  (durationMs r ≠ None ↔ startMs r ≠ None ∧ endMs r ≠ None) ∧
  ∀ d, durationMs r = Some d →
       ∃ s e, startMs r = Some s ∧ endMs r = Some e ∧ d = e - s ∧ 0 ≤ d.

(** A line the aggregation can read: not a record at all, or an object
    whose message is absent, empty or a text. *)
Definition readable_line (line : jline) : bool :=
  match line with
  | Parsed (JObj kvs) => is_text (default JNull (assoc_last "MESSAGE" kvs))
  | Parsed _ => false
  | Blank | Unparseable => true
  end.

(** A command line whose unit names and invocation identifiers all match
    their patterns. *)
Definition cmd_matches (c : cmd) : Prop :=
  Forall (fun u => UNIT_RE u = true) (cmd_units c) ∧
  Forall (fun i => INVOCATION_RE i = true) (cmd_invocations c).

(** [m] only adds commands that satisfy [P] to the trace, and a value it
    returns satisfies [Q]. *)
Definition issues_only {A} (P : cmd -> Prop) (Q : A -> Prop) (m : M A) : Prop :=
  ∀ tr, ∃ cs, snd (m tr) = tr ++ cs ∧ Forall P cs ∧
              ∀ a, fst (m tr) = inr a → Q a.

(** ** A host to run the functions on *)

Module Demo.

Definition nl : string := String "010" "".

Definition inv_a : string := "aaaaaaaaaaaaaaaaaaaaaaaaaaaaaaaa".
Definition inv_b : string := "bbbbbbbbbbbbbbbbbbbbbbbbbbbbbbbb".
Definition inv_c : string := "cccccccccccccccccccccccccccccccc".

Definition record (inv usec cpu msg : string) : jline :=
  Parsed (JObj [("INVOCATION_ID", JStr inv);
                ("__REALTIME_TIMESTAMP", JStr usec);
                ("CPU_USAGE_NSEC", JStr cpu);
                ("MESSAGE", JStr msg)]).

(** An entry that carries the field [INVOCATION_ID] twice: [journalctl]
    prints a repeated field as an array. *)
Definition twice : jline :=
  Parsed (JObj [("INVOCATION_ID", JArr [JStr inv_a; JStr inv_b]);
                ("MESSAGE", JStr "hello")]).

(** A line without invocation identifier, as the kernel's lines are. *)
Definition anonymous (msg : string) : jline :=
  Parsed (JObj [("MESSAGE", JStr msg)]).

(** The scan of [backup.service], in the order the store prints it. *)
Definition scan : list jline :=
  [record inv_c "1700000300000000" "" "Starting backup";
   record inv_b "1700000200000000" "" "Starting backup";
   Blank;
   Unparseable;
   anonymous "unrelated";
   record inv_a "1700000100000000" "" "Starting backup";
   record inv_c "1700000301500000" "300" "Finished backup";
   record inv_b "1700000202000000" "50" "backup.service: Failed with result 'exit-code'."].

Definition run_of (inv : string) : list jline :=
  if String.eqb inv inv_c then
    [record inv_c "1700000300000000" "100" "Starting backup";
     record inv_c "1700000300700000" "50" "copying";
     record inv_c "1700000301500000" "300" "Finished backup"]
  else if String.eqb inv inv_b then
    [record inv_b "1700000200000000" "" "Starting backup";
     record inv_b "1700000202000000" "50" "backup.service: Failed with result 'exit-code'.";
     record inv_b "1700000202000100" "" "Finished backup"]
  else [].

Definition timers : list raw_timer :=
  [{| rt_unit := Some "weekly.timer"; rt_activates := JStr "backup.service";
      rt_next := JNull; rt_last := JInt 1700000000000000 |};
   {| rt_unit := Some "backup.timer"; rt_activates := JStr "backup.service";
      rt_next := JInt 5000000; rt_last := JNull |}].

Definition host : world := fun _ c =>
  match c return reply (answer c) with
  | ListUnitFiles =>
      Exit0 ("backup.service static" +:+ nl +:+ "backup.timer enabled" +:+ nl)
  | ListUnits =>
      Exit0 ("backup.timer loaded active waiting Nightly backup" +:+ nl)
  | ListTargets =>
      Exit0 ("timers.target loaded active active Timer Units" +:+ nl)
  | ListTimers => Exit0 (Some timers)
  | JournalScan u =>
      if String.eqb u "backup.service" then Exit0 scan else Exit0 []
  | JournalInvocation u inv =>
      if String.eqb u "backup.service" then Exit0 (run_of inv) else Exit0 []
  | JournalCat _ _ _ => Exit0 ("Starting backup" +:+ nl)
  | ListDependencies t =>
      if String.eqb t "timers.target"
      then Exit0 ("timers.target" +:+ nl +:+ "● ├─backup.timer" +:+ nl)
      else Exit0 ""
  | ShowUnit u => Exit0 ("Id=" +:+ u +:+ nl)
  | CatUnit _ => Exit0 ""
  end.

(** The history of [backup.timer], two runs at most, on this host. *)
Definition history_runs : list run_summary :=
  Eval vm_compute in
    match fst (list_runs host "backup.timer" 2 []) with
    | inr (_, runs) => runs
    | inl _ => []
    end.

Definition history_trace : trace :=
  Eval vm_compute in snd (list_runs host "backup.timer" 2 []).

(** The timers of this host as [list_timers] returns them, and the
    schedule of [backup.service]. *)
Definition listing : list timer :=
  Eval vm_compute in
    match fst (list_timers host []) with inr ts => ts | inl _ => [] end.

Definition backup_schedule : schedule :=
  Eval vm_compute in
    match fst (schedule_for_unit host "backup.service" []) with
    | inr s => s
    | inl _ => other_schedule ""
    end.

(** The catalog of this host, and what the filter by [timers.target]
    leaves of it. *)
Definition catalog : list unit_item :=
  Eval vm_compute in
    match fst (list_units host []) with inr us => us | inl _ => [] end.

Definition filtered_units : list unit_item :=
  Eval vm_compute in
    match fst (units_for_targets host ["timers.target"] []) with
    | inr us => us
    | inl _ => []
    end.

Definition filtered_trace : trace :=
  Eval vm_compute in snd (units_for_targets host ["timers.target"] []).

(** The same host with one more entry in the journal of
    [backup.service]. *)
Definition twice_host : world := fun tr c =>
  match c return reply (answer c) with
  | JournalScan u =>
      if String.eqb u "backup.service" then Exit0 (twice :: scan) else Exit0 []
  | c => host tr c
  end.

(** A host on which the dependency listing of any target fails. *)
Definition no_target_host : world := fun tr c =>
  match c return reply (answer c) with
  | ListDependencies t => ExitErr ("Unit " +:+ t +:+ " not found." +:+ nl) ""
  | c => host tr c
  end.

(** A unit name of 205 characters, within the 255 systemd allows. *)
Definition long_service : string :=
  String.concat "" (replicate 197 "a") +:+ ".service".

(** A host whose timer [x.timer] activates [long_service]. *)
Definition long_host : world := fun tr c =>
  match c return reply (answer c) with
  | ListTimers =>
      Exit0 (Some [{| rt_unit := Some "x.timer"; rt_activates := JStr long_service;
                      rt_next := JInt 5000000; rt_last := JNull |}])
  | c => host tr c
  end.

End Demo.

(** ** The request handler *)

(** What [do_GET] takes from [urllib] and from [int]'s error. *)
Class PyWeb := {
  url_unquote : string -> string;        (* urllib.parse.unquote(s) *)
  int_error_text : string -> string      (* str(e) for the ValueError of int(s) *)
}.

(** [s[n:]] *)
Fixpoint str_drop (n : nat) (s : string) : string :=
  match n, s with
  | O, _ => s
  | S n', String _ rest => str_drop n' rest
  | S _, EmptyString => EmptyString
  end.

(** [s.split(sep)] for a separator of one character. *)
Fixpoint split_on (sep : ascii) (s : string) : list string :=
  match s with
  | EmptyString => [EmptyString]
  | String c rest =>
      if Ascii.eqb c sep then EmptyString :: split_on sep rest
      else match split_on sep rest with
           | first :: more => String c first :: more
           | [] => [String c EmptyString]
           end
  end.

(** [a, b = s.split(sep, 1)], for [s] that holds [sep]. *)
Fixpoint split_once (sep : ascii) (s : string) : option (string * string) :=
  match s with
  | EmptyString => None
  | String c rest =>
      if Ascii.eqb c sep then Some (EmptyString, rest)
      else '(a, b) ← split_once sep rest; Some (String c a, b)
  end.

(** The JSON object a route sends. *)
Inductive payload :=
  | PTargets (items : list unit_item)
  | PTimers (items : list timer)
  | PSchedule (data : schedule)
  | PRuns (unit log_unit : string) (runs : list run_summary)
  | PLogs (unit invocation_id logs : string)
  | PUnits (items : list unit_item)
  | PUnit (detail : unit_info)
  | PError (e : exn)                     (* {"error": str(e)} *)
  | PInvalidPath.                        (* {"error": "invalid path"} *)

Inductive response :=
  | Json (status : Z) (body : payload)   (* self.send_json(status, body) *)
  | Static (path : string).              (* self.serve_static(path) *)

Definition OK : Z := 200.
Definition BAD_REQUEST : Z := 400.
Definition INTERNAL_SERVER_ERROR : Z := 500.

(** A [try] block with [except ValueError] (when the route has it) and
    [except Exception] around [m]; writing to the socket is taken to
    succeed. *)
Definition answer_with {A} (catches_value_error : bool) (ok : A -> payload)
    (m : M A) : trace -> response * trace := fun tr =>
  match m tr with
  | (inr a, tr') => (Json OK (ok a), tr')
  | (inl e, tr') =>
      (Json (if catches_value_error && is_value_error e
             then BAD_REQUEST else INTERNAL_SERVER_ERROR) (PError e), tr')
  end.

(** [int((qs.get("limit", [default])[0]) or default)] *)
Definition query_limit `{PyText} `{PyWeb} (qs : gmap string (list string))
    (default : string) : exc Z :=
  v ← match qs !! "limit" with
       | None => inr default
       | Some (x :: _) => inr x
       | Some [] => inl IndexError
       end;
  let text := if String.eqb v "" then default else v in
  match int_of_str text with
  | Some n => inr n
  | None => inl (ValueError (int_error_text text))
  end.

(** The loop that fills [targets] from [qs.get("targets", [])]. *)
Definition query_targets `{PyText} (qs : gmap string (list string)) : list string :=
  v ← default [] (qs !! "targets");
  t ← split_on "," v;
  let t' := str_strip t in
  if String.eqb t' "" then [] else [t'].

(** [do_GET] on the path and the parsed query of the request. *)
Definition do_GET `{PyText} `{PyWeb} (w : world) (path : string)
    (qs : gmap string (list string)) : trace -> response * trace :=
  if String.eqb path "/api/targets" then
    answer_with false PTargets (list_targets w)
  else if String.eqb path "/api/timers" then
    answer_with false PTimers (list_timers w)
  else if startswith "/api/schedule/" path then
    let unit := url_unquote (str_drop (String.length "/api/schedule/") path) in
    answer_with true PSchedule (schedule_for_unit w unit)
  else if startswith "/api/runs/" path then
    let unit := url_unquote (str_drop (String.length "/api/runs/") path) in
    answer_with true (fun data => PRuns unit (fst data) (snd data))
      (limit ← lift (query_limit qs "10"); list_runs w unit limit)
  else if startswith "/api/logs/" path then
    let rest := str_drop (String.length "/api/logs/") path in
    match split_once "/" rest with
    | None => fun tr => (Json BAD_REQUEST PInvalidPath, tr)
    | Some (unit_enc, inv_enc) =>
        let unit := url_unquote unit_enc in
        let inv := url_unquote inv_enc in
        answer_with true (PLogs unit inv)
          (limit ← lift (query_limit qs "400"); logs_for_invocation w unit inv limit)
    end
  else if String.eqb path "/api/units" then
    answer_with false PUnits (units_for_targets w (query_targets qs))
  else if startswith "/api/unit/" path then
    let unit := url_unquote (str_drop (String.length "/api/unit/") path) in
    answer_with true PUnit (unit_detail w unit)
  else fun tr => (Static path, tr).

(** [urllib.parse.unquote] and [int]'s message on ASCII text. *)
Module AsciiWeb.

Definition hex_digit (c : ascii) : option N :=
  if between 48 57 c then Some (N_of_ascii c - 48)%N
  else if between 65 70 c then Some (N_of_ascii c - 55)%N
  else if between 97 102 c then Some (N_of_ascii c - 87)%N
  else None.

(** Percent escapes are decoded to the bytes they name: exact whenever
    those bytes are well-formed UTF-8. *)
Fixpoint unquote (s : string) : string :=
  match s with
  | String "%" (String h (String l rest) as tail) =>
      match hex_digit h, hex_digit l with
      | Some a, Some b => String (ascii_of_N (16 * a + b)) (unquote rest)
      | _, _ => String "%" (unquote tail)
      end
  | String c rest => String c (unquote rest)
  | EmptyString => EmptyString
  end.

(** The text of the error of [int(s)], exact for an [s] of at most 198
    printable ASCII characters without a quote or backslash, which [repr]
    writes between single quotes as they are. *)
Definition int_error (s : string) : string :=
  "invalid literal for int() with base 10: '" +:+ s +:+ "'".

End AsciiWeb.

#[global] Instance ascii_web : PyWeb := {|
  url_unquote := AsciiWeb.unquote;
  int_error_text := AsciiWeb.int_error
|}.

(** ** Requests to run the handler on *)

Module DemoWeb.

(** A host whose [systemctl] prints the timer table as text, as versions
    without JSON output for this listing do: [json.loads] raises on it. *)
Definition text_timers_host : world := fun tr c =>
  match c return reply (answer c) with
  | ListTimers => Exit0 None
  | c => Demo.host tr c
  end.

Definition no_query : gmap string (list string) := ∅.

Definition limit_abc : gmap string (list string) := {[ "limit" := ["abc"] ]}.

End DemoWeb.

(** ** More vocabulary *)

(** The text the status rule reads in a message. *)
Definition lowered `{PyText} (msg : json) : string :=
  match msg with
  | JStr s => str_lower s
  | _ => str_lower ""
  end.

Definition failure_text (m : string) : bool :=
  contains "failed" m || contains "error" m || contains "exited" m.

Definition success_text (m : string) : bool :=
  contains "deactivated successfully" m || startswith "finished " m.

(** The status of a run by what its messages hold, in any order. *)
Definition final_status (texts : list string) : status :=
  if existsb failure_text texts then Failed
  else if existsb success_text texts then Success
  else Unknown.

(** Every command of [cs], issued in turn after [tr], exits with status 0. *)
Fixpoint all_exit0 (w : world) (tr : trace) (cs : list cmd) : Prop :=
  match cs with
  | [] => True
  | c :: rest => (∃ out, w tr c = Exit0 out) ∧ all_exit0 w (tr ++ [c]) rest
  end.

(** [m] returns a value only after commands that all exited with 0. *)
Definition returns_after_exit0 {A} (w : world) (m : M A) : Prop :=
  ∀ tr a tr', m tr = (inr a, tr') → ∃ cs, tr' = tr ++ cs ∧ all_exit0 w tr cs.

(** The last timer of a listing that goes by a name. *)
Definition last_named (name : string) (timers : list timer) : option timer :=
  last (List.filter (fun t => bool_decide (t_timer t = Some name)) timers).

(** * Theorems *)

(** ** Exceptions and the command monad *)

Lemma exc_bind_inr {A B} (m : exc A) (f : A -> exc B) (b : B) :
  m ≫= f = inr b ↔ ∃ a, m = inr a ∧ f a = inr b.
Proof.
  destruct m as [e|a]; simpl; split.
  - discriminate.
  - intros (a & Ha & _). discriminate.
  - eauto.
  - intros (a' & Ha & Hf). congruence.
Qed.

Tactic Notation "exc_inv" hyp(H) "as" ident(a) ident(Ha) :=
  apply exc_bind_inr in H; destruct H as (a & Ha & H).

(** ** The status rule *)

Lemma message_text_str `{PyText} (m : string) :
  message_text (JStr m) = inr (str_lower m).
Proof.
  unfold message_text; simpl.
  destruct (String.eqb_spec m ""); simpl; congruence.
Qed.

Lemma message_text_is_text `{PyText} (msg : json) :
  is_text msg = true → ∃ m, message_text msg = inr m.
Proof.
  unfold message_text, is_text.
  destruct msg; intros Ht; try (apply negb_true_iff in Ht; rewrite Ht); eauto.
  destruct (truthy (JStr s)); eauto.
Qed.

Lemma classify_failed (m : string) : classify Failed m = Failed.
Proof.
  unfold classify.
  destruct (_ || _ || _); [reflexivity|].
  destruct (_ || _); [|reflexivity].
  destruct (decide _); congruence.
Qed.

Lemma upd_status_failed `{PyText} (msg : json) (s : status) :
  upd_status Failed msg = inr s → s = Failed.
Proof.
  unfold upd_status. intros Hs. exc_inv Hs as m Hm.
  injection Hs as <-. apply classify_failed.
Qed.

Lemma upd_status_text `{PyText} (prev : status) (msg : json) :
  is_text msg = true → ∃ s, upd_status prev msg = inr s.
Proof.
  intros [m Hm]%message_text_is_text. unfold upd_status. rewrite Hm. simpl. eauto.
Qed.

Lemma fold_status_app `{PyText} (prev : status) (pre post : list json) :
  fold_status prev (pre ++ post) =
  s ← fold_status prev pre; fold_status s post.
Proof.
  revert prev. induction pre as [|msg pre IH]; intros prev; simpl; [reflexivity|].
  destruct (upd_status prev msg) as [e|s]; simpl; [reflexivity|]. apply IH.
Qed.

Lemma fold_status_failed `{PyText} (msgs : list json) (s : status) :
  fold_status Failed msgs = inr s → s = Failed.
Proof.
  induction msgs as [|msg msgs IH]; simpl; intros Hs.
  - congruence.
  - exc_inv Hs as s' Hs'. apply upd_status_failed in Hs' as ->. auto.
Qed.

Lemma fold_status_text `{PyText} (prev : status) (msgs : list json) :
  Forall (fun m => is_text m = true) msgs → ∃ s, fold_status prev msgs = inr s.
Proof.
  intros Hall. revert prev.
  induction Hall as [|msg msgs Hm _ IH]; intros prev; simpl; [eauto|].
  destruct (upd_status_text prev msg Hm) as [s ->]. simpl. apply IH.
Qed.

(** C1. Status monotonicity: fold any sequence of messages with
    [upd_status] from [unknown]; once the status is [failed] after a
    prefix, it is [failed] after every longer prefix, whatever the later
    messages say ("deactivated successfully" and "finished " included).
    The fold over readable messages always yields a status; a message
    that is not text makes it raise, and then yields none. *)
Theorem status_monotone `{PyText} (pre post : list json) :
  fold_status Unknown pre = inr Failed →
  (Forall (fun m => is_text m = true) post →
   fold_status Unknown (pre ++ post) = inr Failed) ∧
  (∀ s, fold_status Unknown (pre ++ post) = inr s → s = Failed).
Proof.
  intros Hpre. rewrite fold_status_app, Hpre. simpl. split.
  - intros Hpost. destruct (fold_status_text Failed post Hpost) as [s Hs].
    rewrite Hs. f_equal. eapply fold_status_failed, Hs.
  - intros s. apply fold_status_failed.
Qed.

Lemma status_monotone_witness :
  fold_status Unknown
    ([JStr "Main process exited, code=exited, status=1/FAILURE"] ++
     [JStr "Finished nightly backup."; JNull; JStr "backup.service: Deactivated successfully."])
  = inr Failed.
Proof.
  apply (status_monotone
           [JStr "Main process exited, code=exited, status=1/FAILURE"]
           [JStr "Finished nightly backup."; JNull;
            JStr "backup.service: Deactivated successfully."]).
  - reflexivity.
  - repeat constructor.
Defined.

(** C9. Within one message failure wins: whatever the status before, a
    message whose lowercased text contains "failed", "error" or "exited"
    gives [failed], also when the text contains "deactivated successfully"
    or starts with "finished ". *)
Theorem failure_takes_precedence `{PyText} (prev : status) (m : string) :
  contains "failed" (str_lower m) || contains "error" (str_lower m)
    || contains "exited" (str_lower m) = true →
  upd_status prev (JStr m) = inr Failed.
Proof.
  intros Hm. unfold upd_status. rewrite message_text_str. simpl.
  unfold classify. rewrite Hm. reflexivity.
Qed.

Lemma failure_takes_precedence_witness :
  startswith "finished " (str_lower "Finished with ERROR; deactivated successfully") = true ∧
  contains "deactivated successfully"
    (str_lower "Finished with ERROR; deactivated successfully") = true ∧
  upd_status Success (JStr "Finished with ERROR; deactivated successfully") = inr Failed.
Proof.
  split; [reflexivity|]. split; [reflexivity|].
  apply (failure_takes_precedence Success
           "Finished with ERROR; deactivated successfully").
  reflexivity.
Defined.

(** ** Discovery *)

Lemma invocation_of_record (e : json) :
  journal_record e = true → invocation_of e = inr (line_id (Parsed e)).
Proof.
  destruct e as [| | | | |xs|kvs]; simpl; try discriminate.
  unfold invocation_of, py_get. simpl.
  destruct (default JNull (assoc_last "INVOCATION_ID" kvs))
    as [|b|n|f|s|xs|kvs'] eqn:Hv; simpl; intros Ht.
  all: try (apply negb_true_iff in Ht; rewrite ?Ht; reflexivity).
  - reflexivity.
  - destruct (String.eqb_spec s "") as [->|]; simpl; [reflexivity|].
    destruct (INVOCATION_RE s); reflexivity.
Qed.

Lemma invocation_of_valid (e : json) (id : string) :
  invocation_of e = inr (Some id) → INVOCATION_RE id = true.
Proof.
  unfold invocation_of. intros Hinv. exc_inv Hinv as inv Hget.
  destruct (negb (truthy inv)); [discriminate|].
  exc_inv Hinv as ok Hok. destruct inv; try discriminate.
  destruct ok; [|discriminate]. simpl in Hok. congruence.
Qed.

Lemma filter_fresh_snoc (ids : list string) (id : string) (l : list string) :
  filter (fun x => x ∉ ids ++ [id]) l =
  filter (fun x => x ∉ ids) (filter (fun y => y ≠ id) l).
Proof.
  rewrite list_filter_filter. apply list_filter_iff. intros x.
  rewrite not_elem_of_app, list_elem_of_singleton. tauto.
Qed.

Lemma filter_fresh_seen (ids : list string) (id : string) (l : list string) :
  id ∈ ids →
  filter (fun x => x ∉ ids) (filter (fun y => y ≠ id) l) = filter (fun x => x ∉ ids) l.
Proof.
  intros Hin. rewrite list_filter_filter. apply list_filter_iff. intros x.
  split; [tauto|]. intros Hx. split; [done|]. intros ->. done.
Qed.

Lemma filter_fresh_nil (l : list string) : filter (fun x => x ∉ []) l = l.
Proof.
  induction l as [|x l IH]; [done|].
  rewrite filter_cons_True by apply not_elem_of_nil. by rewrite IH.
Qed.

Lemma scan_ids_cons (line : jline) (lines : list jline) :
  scan_ids (line :: lines) =
  match line_id line with
  | Some id => id :: scan_ids lines
  | None => scan_ids lines
  end.
Proof. reflexivity. Qed.

Lemma seen_nil (x : string) : x ∈ (∅ : gset string) ↔ x ∈ ([] : list string).
Proof. rewrite elem_of_empty, elem_of_nil. done. Qed.

(** On journal records the loop computes the first [limit] distinct
    identifiers that are not yet in [inv_ids]. *)
Lemma discover_spec (limit : Z) (lines : list jline) :
  Forall (fun l => scan_line_ok l = true) lines →
  ∀ (ids : list string) (S : gset string),
    (∀ x, x ∈ S ↔ x ∈ ids) → Z.of_nat (length ids) < limit →
    discover limit lines ids S =
    inr (ids ++ take (Z.to_nat limit - length ids)
                  (filter (fun x => x ∉ ids) (nub (scan_ids lines)))).
Proof.
  induction 1 as [|line lines Hok _ IH]; intros ids S HS Hlen.
  - cbn. by rewrite take_nil, app_nil_r.
  - rewrite scan_ids_cons.
    destruct line as [| |e]; [by apply IH..|].
    pose proof (invocation_of_record e Hok) as Hinv.
    destruct (line_id (Parsed e)) as [id|]; simpl; rewrite Hinv; simpl;
      [|by apply IH].
    case_decide as Hin.
    + rewrite (IH ids S HS Hlen).
      rewrite filter_cons_False by (rewrite <- HS; tauto).
      rewrite filter_fresh_seen by (by apply HS). done.
    + rewrite filter_cons_True by (by rewrite <- HS).
      rewrite length_app. simpl.
      destruct (Z.of_nat (length ids + 1) >=? limit) eqn:Hfull.
      * apply Z.geb_le in Hfull.
        replace (Z.to_nat limit - length ids)%nat with 1%nat by lia.
        simpl. by rewrite take_0.
      * rewrite Z.geb_leb in Hfull; apply Z.leb_gt in Hfull.
        rewrite (IH (ids ++ [id]) ({[id]} ∪ S)).
        -- rewrite length_app. simpl. rewrite <- app_assoc. simpl.
           replace (Z.to_nat limit - length ids)%nat
             with (Datatypes.S (Z.to_nat limit - (length ids + 1)))%nat by lia.
           simpl. by rewrite filter_fresh_snoc.
        -- intros x. rewrite elem_of_union, elem_of_singleton, elem_of_app,
             list_elem_of_singleton, HS. tauto.
        -- rewrite length_app. simpl. lia.
Qed.

(** Once [limit] identifiers are collected, nothing further is read. *)
Lemma discover_stop (limit : Z) (more lines : list jline) :
  ∀ (ids : list string) (S : gset string) (r : list string),
    Z.of_nat (length ids) < limit →
    discover limit lines ids S = inr r →
    limit ≤ Z.of_nat (length r) →
    discover limit (lines ++ more) ids S = inr r.
Proof.
  induction lines as [|line lines IH]; intros ids S r Hlen Hr Hfull.
  - simpl in Hr. injection Hr as <-. lia.
  - destruct line as [| |e]; simpl in *; [by eapply IH..|].
    destruct (invocation_of e) as [err|[id|]]; simpl in *;
      [discriminate| |by eapply IH].
    case_decide; [by eapply IH|].
    destruct (Z.of_nat (length (ids ++ [id])) >=? limit) eqn:Hnow; [done|].
    rewrite Z.geb_leb in Hnow; apply Z.leb_gt in Hnow. by eapply IH.
Qed.

(** What the loop returns, on any lines at all: at most [limit]
    identifiers, all well formed, none twice. *)
Lemma discover_invariant (limit : Z) (lines : list jline) :
  ∀ (ids : list string) (S : gset string) (r : list string),
    (∀ x, x ∈ S ↔ x ∈ ids) → NoDup ids →
    Forall (fun id => INVOCATION_RE id = true) ids →
    Z.of_nat (length ids) < limit →
    discover limit lines ids S = inr r →
    NoDup r ∧ Forall (fun id => INVOCATION_RE id = true) r ∧
    Z.of_nat (length r) ≤ limit.
Proof.
  induction lines as [|line lines IH]; intros ids S r HS Hnd Hre Hlen Hr.
  - simpl in Hr. injection Hr as <-. split_and!; [done..|lia].
  - destruct line as [| |e]; simpl in *; [by eapply IH..|].
    destruct (invocation_of e) as [err|[id|]] eqn:Hinv; simpl in *;
      [discriminate| |by eapply IH].
    case_decide as Hin; [by eapply IH|].
    assert (NoDup (ids ++ [id])) as Hnd'.
    { apply NoDup_app. split_and!; [done| |apply NoDup_singleton].
      intros x Hx ->%list_elem_of_singleton. by apply Hin, HS. }
    assert (Forall (fun id => INVOCATION_RE id = true) (ids ++ [id])) as Hre'.
    { apply Forall_app. split; [done|]. repeat constructor.
      by eapply invocation_of_valid. }
    destruct (Z.of_nat (length (ids ++ [id])) >=? limit) eqn:Hnow.
    + injection Hr as <-. split_and!; [done..|].
      rewrite length_app in *. simpl in *. lia.
    + rewrite Z.geb_leb in Hnow; apply Z.leb_gt in Hnow. eapply (IH _ ({[id]} ∪ S)); [|done..].
      intros x. rewrite elem_of_union, elem_of_singleton, elem_of_app,
        list_elem_of_singleton, HS. tauto.
Qed.

Lemma elem_of_nub (l : list string) (x : string) : x ∈ nub l ↔ x ∈ l.
Proof.
  induction l as [|y l IH]; simpl; [done|].
  rewrite !elem_of_cons, list_elem_of_filter, IH.
  destruct (decide (x = y)); tauto.
Qed.

Lemma NoDup_nub (l : list string) : NoDup (nub l).
Proof.
  induction l as [|y l IH]; simpl; [constructor|].
  apply NoDup_cons. split; [|by apply NoDup_filter].
  rewrite list_elem_of_filter. tauto.
Qed.

(** X1. On blank lines, lines that do not parse and journal records,
    discovery returns the distinct well-formed invocation identifiers of
    the scan in first-seen order, cut at [limit]; it reads nothing past the
    line that completes [limit] identifiers, whatever follows; store order
    C,B,A,C,B with limit 2 gives [C,B]. *)
Lemma discovery_first_seen (limit : Z) (lines : list jline) :
  1 ≤ limit →
  Forall (fun l => scan_line_ok l = true) lines →
  discover limit lines [] ∅ = inr (take (Z.to_nat limit) (nub (scan_ids lines))) ∧
  (∀ more : list jline,
      limit ≤ Z.of_nat (length (nub (scan_ids lines))) →
      discover limit (lines ++ more) [] ∅ = discover limit lines [] ∅) ∧
  (∀ (a b c : json) (A B C : string),
      lines = [Parsed c; Parsed b; Parsed a; Parsed c; Parsed b] →
      line_id (Parsed a) = Some A → line_id (Parsed b) = Some B →
      line_id (Parsed c) = Some C → B ≠ C →
      discover 2 lines [] ∅ = inr [C; B]).
Proof.
  intros Hlimit Hok.
  assert (∀ n, 1 ≤ n →
    discover n lines [] ∅ = inr (take (Z.to_nat n) (nub (scan_ids lines)))) as Hspec.
  { intros n Hn. rewrite (discover_spec n lines Hok [] ∅).
    - simpl. by rewrite filter_fresh_nil, Nat.sub_0_r.
    - apply seen_nil.
    - simpl. lia. }
  split_and!.
  - by apply Hspec.
  - intros more Hfull. rewrite (Hspec limit Hlimit).
    apply discover_stop; [simpl; lia|by apply Hspec|].
    rewrite length_take. lia.
  - intros a b c A B C -> HA HB HC Hne. rewrite Hspec by lia.
    rewrite !scan_ids_cons, HA, HB, HC. simpl.
    by rewrite filter_cons_True.
Qed.

Lemma discovery_on_demo_scan :
  discover 2 Demo.scan [] ∅ = inr [Demo.inv_c; Demo.inv_b].
Proof.
  refine (eq_trans (proj1 (discovery_first_seen 2 Demo.scan _ _)) _).
  - lia.
  - repeat constructor.
  - vm_compute. reflexivity.
Defined.

(** C3, at the input where the code departs from it.  A journal entry that
    carries [INVOCATION_ID] twice is printed with an array under that key.
    Such a record has no well-formed identifier, yet the scan does not pass
    over it: [INVOCATION_RE.fullmatch] raises [TypeError] and the request
    fails, also when the same scan without that record gives [C,B].  A line
    that parses to something other than an object fails the scan too. *)
Theorem discovery_fails_on_array_identifier :
  discover 2 [Demo.record Demo.inv_c "1" "" ""; Demo.record Demo.inv_b "2" "" ""] [] ∅
    = inr [Demo.inv_c; Demo.inv_b] ∧
  discover 2 [Demo.record Demo.inv_c "1" "" ""; Demo.twice; Demo.record Demo.inv_b "2" "" ""] [] ∅
    = inl TypeError ∧
  discover 2 [Parsed (JArr [])] [] ∅ = inl AttributeError ∧
  fst (list_runs Demo.twice_host "backup.service" 2 []) = inl TypeError.
Proof. split_and!; vm_compute; reflexivity. Qed.

(** ** Reasoning in the command monad *)

Lemma M_bind_eq {A B} (m : M A) (f : A -> M B) (tr : trace) :
  (m ≫= f) tr =
  match m tr with
  | (inl e, tr') => (inl e, tr')
  | (inr a, tr') => f a tr'
  end.
Proof. reflexivity. Qed.

Lemma M_bind_inr {A B} (m : M A) (f : A -> M B) (tr tr2 : trace) (b : B) :
  (m ≫= f) tr = (inr b, tr2) ↔
  ∃ a tr1, m tr = (inr a, tr1) ∧ f a tr1 = (inr b, tr2).
Proof.
  rewrite M_bind_eq. destruct (m tr) as [[e|a] tr1]; split.
  - discriminate.
  - intros (a & tr1' & Hm & _). discriminate.
  - eauto.
  - intros (a' & tr1' & Hm & Hf). congruence.
Qed.

Tactic Notation "M_inv" hyp(H) "as" ident(a) ident(tr) ident(Ha) :=
  apply M_bind_inr in H; destruct H as (a & tr & Ha & H).

Lemma lift_inr {A} (x : exc A) (tr tr' : trace) (a : A) :
  lift x tr = (inr a, tr') ↔ x = inr a ∧ tr' = tr.
Proof. unfold lift. split; [intros [= -> ->]; done|intros [-> ->]; done]. Qed.

Lemma mret_inr {A} (x a : A) (tr tr' : trace) :
  (mret x : M A) tr = (inr a, tr') ↔ a = x ∧ tr' = tr.
Proof. unfold mret, M_ret. split; [intros [= -> ->]; done|intros [-> ->]; done]. Qed.

Lemma run_inr `{PyText} (w : world) (c : cmd) (tr tr' : trace) (out : answer c) :
  run w c tr = (inr out, tr') ↔ w tr c = Exit0 out ∧ tr' = tr ++ [c].
Proof.
  unfold run. destruct (w tr c); split; try (intros [= <- <-]; done);
    intros [[=] ->]; subst; done.
Qed.

(** ** Aggregation *)

Lemma is_minimum_snoc (m : option Z) (l : list Z) (t : Z) :
  is_minimum m l → is_minimum (Some (merge_opt Z.min m t)) (l ++ [t]).
Proof.
  destruct m as [x|]; simpl.
  - intros [Hin Hle]. split.
    + rewrite elem_of_app, list_elem_of_singleton.
      destruct (Z.min_spec x t) as [[_ ->]|[_ ->]]; auto.
    + intros y [Hy| ->%list_elem_of_singleton]%elem_of_app; [|lia].
      specialize (Hle y Hy). lia.
  - intros ->. simpl. split; [apply list_elem_of_singleton; done|].
    intros y ->%list_elem_of_singleton. lia.
Qed.

Lemma is_maximum_snoc (m : option Z) (l : list Z) (t : Z) :
  is_maximum m l → is_maximum (Some (merge_opt Z.max m t)) (l ++ [t]).
Proof.
  destruct m as [x|]; simpl.
  - intros [Hin Hle]. split.
    + rewrite elem_of_app, list_elem_of_singleton.
      destruct (Z.max_spec x t) as [[_ ->]|[_ ->]]; auto.
    + intros y [Hy| ->%list_elem_of_singleton]%elem_of_app; [|lia].
      specialize (Hle y Hy). lia.
  - intros ->. simpl. split; [apply list_elem_of_singleton; done|].
    intros y ->%list_elem_of_singleton. lia.
Qed.

(** What one round of the loop does to the accumulator. *)
Lemma aggregate_record_inr `{PyText} (a a' : run_acc) (e : json) :
  aggregate_record a e = inr a' →
  ∃ ts cpu msg,
    record_field "__REALTIME_TIMESTAMP" (Parsed e) = Some ts ∧
    record_field "CPU_USAGE_NSEC" (Parsed e) = Some cpu ∧
    record_field "MESSAGE" (Parsed e) = Some msg ∧
    start_ms a' = match usec_to_ms ts with
                  | Some t => Some (merge_opt Z.min (start_ms a) t)
                  | None => start_ms a
                  end ∧
    end_ms a' = match usec_to_ms ts with
                | Some t => Some (merge_opt Z.max (end_ms a) t)
                | None => end_ms a
                end ∧
    cpu_usage a' = match py_int cpu with
                   | Some c => Some (merge_opt Z.max (cpu_usage a) c)
                   | None => cpu_usage a
                   end ∧
    upd_status (run_status a) msg = inr (run_status a').
Proof.
  unfold aggregate_record. intros Ha.
  destruct e as [| | | | | |kvs]; try discriminate.
  simpl in Ha. exc_inv Ha as st Hst. injection Ha as <-. simpl.
  eexists _, _, _. split_and!; try reflexivity; [|done].
  by destruct (default JNull (assoc_last "CPU_USAGE_NSEC" kvs)).
Qed.

Lemma timestamps_cons `{PyText} (line : jline) (lines : list jline) :
  timestamps (line :: lines) =
  match record_field "__REALTIME_TIMESTAMP" line ≫= usec_to_ms with
  | Some t => t :: timestamps lines
  | None => timestamps lines
  end.
Proof. reflexivity. Qed.

Lemma cpu_samples_cons `{PyText} (line : jline) (lines : list jline) :
  cpu_samples (line :: lines) =
  match record_field "CPU_USAGE_NSEC" line ≫= py_int with
  | Some c => c :: cpu_samples lines
  | None => cpu_samples lines
  end.
Proof. reflexivity. Qed.

Lemma messages_cons (line : jline) (lines : list jline) :
  messages (line :: lines) =
  match record_field "MESSAGE" line with
  | Some m => m :: messages lines
  | None => messages lines
  end.
Proof. reflexivity. Qed.

(** The loop keeps the least and greatest timestamp, the greatest CPU
    sample, and the status folded over the messages. *)
Lemma aggregate_spec `{PyText} (lines : list jline) :
  ∀ (a a' : run_acc) (ts cs : list Z),
    aggregate a lines = inr a' →
    is_minimum (start_ms a) ts → is_maximum (end_ms a) ts →
    is_maximum (cpu_usage a) cs →
    is_minimum (start_ms a') (ts ++ timestamps lines) ∧
    is_maximum (end_ms a') (ts ++ timestamps lines) ∧
    is_maximum (cpu_usage a') (cs ++ cpu_samples lines) ∧
    fold_status (run_status a) (messages lines) = inr (run_status a').
Proof.
  induction lines as [|line lines IH]; intros a a' ts cs Ha Hmin Hmax Hcpu.
  - injection Ha as <-. cbn. by rewrite !app_nil_r.
  - rewrite timestamps_cons, cpu_samples_cons, messages_cons.
    destruct line as [| |e]; [by eapply IH..|].
    cbn [aggregate] in Ha. exc_inv Ha as a1 Ha1.
    apply aggregate_record_inr in Ha1
      as (t & c & m & -> & -> & -> & Hs & He & Hc & Hst).
    cbn [mbind option_bind fold_status]. rewrite Hst. cbn [mbind exc_bind].
    destruct (usec_to_ms t) as [t'|]; destruct (py_int c) as [c'|];
      rewrite ?(cons_middle _ ts), ?(cons_middle _ cs), ?app_assoc;
      eapply IH; try done; rewrite ?Hs, ?He, ?Hc;
      auto using is_minimum_snoc, is_maximum_snoc.
Qed.

Lemma summarize_inr `{PyText} (inv : string) (a : run_acc) (r : run_summary) :
  summarize inv a = inr r →
  invocationId r = inv ∧ startMs r = start_ms a ∧ endMs r = end_ms a ∧
  durationMs r = duration_of (start_ms a) (end_ms a) ∧
  run_state r = run_status a ∧ cpuUsageNsec r = cpu_usage a.
Proof.
  unfold summarize. intros Hr.
  exc_inv Hr as si Hsi. exc_inv Hr as ei Hei. injection Hr as <-. done.
Qed.

Lemma summarize_run_inr `{PyText} (inv : string) (raw : list jline) (r : run_summary) :
  summarize_run inv raw = inr r →
  invocationId r = inv ∧
  is_minimum (startMs r) (timestamps raw) ∧
  is_maximum (endMs r) (timestamps raw) ∧
  durationMs r = duration_of (startMs r) (endMs r) ∧
  is_maximum (cpuUsageNsec r) (cpu_samples raw) ∧
  fold_status Unknown (messages raw) = inr (run_state r).
Proof.
  unfold summarize_run. intros Hr. exc_inv Hr as a Ha.
  apply summarize_inr in Hr as (-> & -> & -> & -> & -> & ->).
  apply (aggregate_spec raw run_acc0 a [] []) in Ha as (? & ? & ? & ?); done.
Qed.

Lemma duration_of_ok (r : run_summary) (l : list Z) :
  is_minimum (startMs r) l → is_maximum (endMs r) l →
  durationMs r = duration_of (startMs r) (endMs r) →
  duration_ok r.
Proof.
  unfold duration_ok. intros Hmin Hmax ->.
  destruct (startMs r) as [s|], (endMs r) as [e|]; simpl in *.
  - split; [done|]. intros d [= <-]. exists s, e. split_and!; try done.
    destruct Hmin as [_ Hle], Hmax as [He _]. specialize (Hle e He). lia.
  - destruct Hmin as [Hin _]. subst l. by apply elem_of_nil in Hin.
  - destruct Hmax as [Hin _]. subst l. by apply elem_of_nil in Hin.
  - split; [|done]. split; [done|]. intros [? _]. done.
Qed.

(** Every round of [for inv in inv_ids] asks the host for the records of
    its identifier and summarizes exactly those. *)
Lemma mapM_fetch_run `{PyText} (w : world) (log_unit : string) (ids : list string) :
  ∀ (tr tr' : trace) (runs : list run_summary),
    mapM (fetch_run w log_unit) ids tr = (inr runs, tr') →
    invocationId <$> runs = ids ∧
    Forall (fun r => ∃ raw tr0,
                w tr0 (JournalInvocation log_unit (invocationId r)) = Exit0 raw ∧
                summarize_run (invocationId r) raw = inr r) runs.
Proof.
  induction ids as [|inv ids IH]; intros tr tr' runs Hruns.
  - apply mret_inr in Hruns as [-> _]. split; [done|constructor].
  - cbn [mapM] in Hruns. M_inv Hruns as r tr1 Hr. M_inv Hruns as rs tr2 Hrs.
    apply mret_inr in Hruns as [-> _].
    apply IH in Hrs as [Hids Hall].
    unfold fetch_run in Hr. M_inv Hr as raw tr0 Hraw.
    apply (run_inr w (JournalInvocation log_unit inv)) in Hraw as [Hraw ->].
    apply lift_inr in Hr as [Hr _].
    pose proof (summarize_run_inr _ _ _ Hr) as (Hinv & _).
    split; [rewrite fmap_cons; congruence|].
    constructor; [|done]. exists raw, tr. by rewrite Hinv.
Qed.

(** The stages [list_runs] went through when it returns. *)
Lemma list_runs_inr `{PyText} (w : world) (unit : string) (limit : Z)
    (tr tr' : trace) (log_unit : string) (runs : list run_summary) :
  list_runs w unit limit tr = (inr (log_unit, runs), tr') →
  invalid_unit unit = false ∧ 1 ≤ limit ≤ 50 ∧
  ∃ tr1 scan ids,
    resolve_log_unit w unit tr = (inr log_unit, tr1) ∧
    w tr1 (JournalScan log_unit) = Exit0 scan ∧
    discover limit scan [] ∅ = inr ids ∧
    mapM (fetch_run w log_unit) ids (tr1 ++ [JournalScan log_unit]) = (inr runs, tr').
Proof.
  unfold list_runs. intros Hr.
  destruct (invalid_unit unit); [discriminate|].
  destruct (_ || _) eqn:Hlim; [discriminate|].
  apply orb_false_iff in Hlim as [?%Z.ltb_ge ?%Z.ltb_ge].
  M_inv Hr as lu tr1 Hlu. M_inv Hr as scan tr2 Hscan.
  M_inv Hr as ids tr3 Hids. M_inv Hr as rs tr4 Hrs.
  apply mret_inr in Hr as [[= -> ->] ->].
  apply (run_inr w (JournalScan lu)) in Hscan as [Hscan ->].
  apply lift_inr in Hids as [Hids ->].
  split_and!; [done|lia|lia|]. by exists tr1, scan, ids.
Qed.

(** C2. Every run summary [list_runs] returns was folded from the records
    the host gave for its identifier: [startMs] is the least and [endMs]
    the greatest timestamp among those with a parseable one, [durationMs]
    is there exactly when both are, and then it is [endMs - startMs] and
    not negative. *)
Theorem duration_presence `{PyText} (w : world) (unit : string) (limit : Z)
    (tr tr' : trace) (log_unit : string) (runs : list run_summary) :
  list_runs w unit limit tr = (inr (log_unit, runs), tr') →
  Forall (fun r =>
            duration_ok r ∧
            ∃ raw tr0,
              w tr0 (JournalInvocation log_unit (invocationId r)) = Exit0 raw ∧
              is_minimum (startMs r) (timestamps raw) ∧
              is_maximum (endMs r) (timestamps raw)) runs.
Proof.
  intros Hrun.
  apply list_runs_inr in Hrun as (_ & _ & tr1 & scan & ids & _ & _ & _ & Hruns).
  apply mapM_fetch_run in Hruns as [_ Hall].
  eapply Forall_impl; [exact Hall|]. simpl.
  intros r (raw & tr0 & Hraw & Hsum).
  apply summarize_run_inr in Hsum as (_ & Hmin & Hmax & Hdur & _).
  split; [by eapply duration_of_ok|]. by exists raw, tr0.
Qed.

Lemma duration_presence_witness :
  list_runs Demo.host "backup.timer" 2 [] =
    (inr ("backup.service", Demo.history_runs), Demo.history_trace) ∧
  durationMs <$> Demo.history_runs = [Some 1500; Some 2000] ∧
  Forall duration_ok Demo.history_runs.
Proof.
  split; [vm_compute; reflexivity|]. split; [reflexivity|].
  eapply Forall_impl.
  - apply (duration_presence Demo.host "backup.timer" 2 [] Demo.history_trace
             "backup.service" Demo.history_runs).
    vm_compute. reflexivity.
  - intros r [Hr _]. exact Hr.
Defined.

(** On readable lines the loop runs to its end. *)
Lemma aggregate_total `{PyText} (lines : list jline) :
  Forall (fun l => readable_line l = true) lines →
  ∀ a, ∃ a', aggregate a lines = inr a'.
Proof.
  induction 1 as [|line lines Hline _ IH]; intros a; [by eexists|].
  destruct line as [| |e]; simpl; [apply IH..|].
  destruct e as [| | | | | |kvs]; try discriminate. simpl in Hline.
  unfold aggregate_record. simpl.
  destruct (upd_status_text (run_status a) _ Hline) as [s ->]. simpl. apply IH.
Qed.

Lemma is_maximum_unique (l : list Z) (m1 m2 : option Z) :
  is_maximum m1 l → is_maximum m2 l → m1 = m2.
Proof.
  destruct m1 as [x|], m2 as [y|]; simpl.
  - intros [Hx Hlx] [Hy Hly]. f_equal.
    specialize (Hlx y Hy). specialize (Hly x Hx). lia.
  - intros [Hx _] ->. by apply elem_of_nil in Hx.
  - intros -> [Hy _]. by apply elem_of_nil in Hy.
  - done.
Qed.

(** C7. Over the records of one invocation the reported [cpuUsageNsec] is
    the greatest CPU-usage sample among them, and null when no record has
    a numeric one; as records are folded the value kept never goes down;
    samples 100, 50, 300 give 300. *)
Theorem cpu_usage_maximum `{PyText} (inv : string) (raw : list jline) (r : run_summary) :
  summarize_run inv raw = inr r →
  is_maximum (cpuUsageNsec r) (cpu_samples raw) ∧
  (∀ (pre post : list jline) (a1 a2 : run_acc),
      raw = pre ++ post →
      aggregate run_acc0 pre = inr a1 → aggregate run_acc0 raw = inr a2 →
      counter_le (cpu_usage a1) (cpu_usage a2) ∧ cpuUsageNsec r = cpu_usage a2) ∧
  (cpu_samples raw = [100; 50; 300] → cpuUsageNsec r = Some 300).
Proof.
  intros Hr. pose proof (summarize_run_inr _ _ _ Hr) as (_ & _ & _ & _ & Hmax & _).
  split_and!; [done| |].
  - intros pre post a1 a2 -> H1 H2.
    apply (aggregate_spec _ _ _ [] []) in H1 as (_ & _ & Hm1 & _); [|done..].
    pose proof H2 as H2'.
    apply (aggregate_spec _ _ _ [] []) in H2 as (_ & _ & Hm2 & _); [|done..].
    simpl in Hm1, Hm2. split.
    + unfold cpu_samples in Hm2. rewrite omap_app in Hm2.
      fold (cpu_samples pre) in Hm2.
      destruct (cpu_usage a1) as [c1|]; [|done].
      destruct Hm1 as [Hin _].
      destruct (cpu_usage a2) as [c2|]; simpl in *.
      * destruct Hm2 as [_ Hle]. apply Hle, elem_of_app. by left.
      * apply app_eq_nil in Hm2 as [Hnil _]. rewrite Hnil in Hin.
        by apply elem_of_nil in Hin.
    + unfold summarize_run in Hr. rewrite H2' in Hr. simpl in Hr.
      by apply summarize_inr in Hr as (_ & _ & _ & _ & _ & ->).
  - intros Hs. rewrite Hs in Hmax.
    apply (is_maximum_unique [100; 50; 300]); [done|].
    simpl. split; [set_solver|]. intros y Hy.
    repeat (apply elem_of_cons in Hy as [->|Hy]); [lia..|].
    by apply elem_of_nil in Hy.
Qed.

Lemma cpu_usage_maximum_witness :
  cpu_samples (Demo.run_of Demo.inv_c) = [100; 50; 300] ∧
  ∃ r, summarize_run Demo.inv_c (Demo.run_of Demo.inv_c) = inr r ∧
       cpuUsageNsec r = Some 300.
Proof.
  split; [reflexivity|].
  destruct (summarize_run Demo.inv_c (Demo.run_of Demo.inv_c)) as [e|r] eqn:Hr.
  - vm_compute in Hr. discriminate.
  - exists r. split; [reflexivity|].
    apply (cpu_usage_maximum Demo.inv_c (Demo.run_of Demo.inv_c) r Hr).
    reflexivity.
Defined.

(** C10. Whenever [list_runs] returns, its runs are at most [limit], their
    invocation identifiers are pairwise distinct, and each is 32 characters
    long, all of them among 0-9 and a-f. *)
Theorem runs_bounded_distinct `{PyText} (w : world) (unit : string) (limit : Z)
    (tr tr' : trace) (log_unit : string) (runs : list run_summary) :
  list_runs w unit limit tr = (inr (log_unit, runs), tr') →
  Z.of_nat (length runs) ≤ limit ∧
  NoDup (invocationId <$> runs) ∧
  Forall (fun r => String.length (invocationId r) = 32%nat ∧
                   string_forallb hex_char (invocationId r) = true) runs.
Proof.
  intros Hrun.
  apply list_runs_inr in Hrun as (_ & Hlimit & tr1 & scan & ids & _ & _ & Hids & Hruns).
  apply mapM_fetch_run in Hruns as [Hmap _].
  apply discover_invariant in Hids as (Hnd & Hre & Hlen);
    [|apply seen_nil|constructor|constructor|simpl; lia].
  rewrite <- Hmap in Hnd, Hre, Hlen. rewrite length_fmap in Hlen.
  split_and!; [done..|].
  apply Forall_fmap in Hre. eapply Forall_impl; [exact Hre|]. simpl.
  intros r [Hl Hc]%andb_true_iff. split; [by apply Nat.eqb_eq|done].
Qed.

Lemma runs_bounded_distinct_witness :
  list_runs Demo.host "backup.timer" 2 [] =
    (inr ("backup.service", Demo.history_runs), Demo.history_trace) ∧
  invocationId <$> Demo.history_runs = [Demo.inv_c; Demo.inv_b] ∧
  Z.of_nat (length Demo.history_runs) ≤ 2 ∧
  NoDup (invocationId <$> Demo.history_runs).
Proof.
  split; [vm_compute; reflexivity|]. split; [reflexivity|].
  assert (list_runs Demo.host "backup.timer" 2 [] =
            (inr ("backup.service", Demo.history_runs), Demo.history_trace)) as Hrun
    by (vm_compute; reflexivity).
  destruct (runs_bounded_distinct Demo.host "backup.timer" 2 [] Demo.history_trace
              "backup.service" Demo.history_runs Hrun) as (Hlen & Hnd & _).
  split; [exact Hlen|exact Hnd].
Defined.

(** ** Sorting and the choice of a timer *)

Section SortBy.
Context {A : Type} (le : A -> A -> bool).
Hypothesis le_total : ∀ x y, le x y = true ∨ le y x = true.
Hypothesis le_trans : ∀ x y z, le x y = true → le y z = true → le x z = true.

Lemma insert_by_head (x : A) (l : list A) :
  head (insert_by le x l) =
  Some (match head l with
        | Some y => if le x y then x else y
        | None => x
        end).
Proof. destruct l as [|y l]; simpl; [done|]. by destruct (le x y). Qed.

(** The first element after sorting is an element below all others. *)
Lemma sort_by_head (l : list A) :
  match head (sort_by le l) with
  | Some m => m ∈ l ∧ ∀ c, c ∈ l → le m c = true
  | None => l = []
  end.
Proof.
  induction l as [|x l IH]; simpl; [done|].
  rewrite insert_by_head.
  assert (le x x = true) as Hrefl by (by destruct (le_total x x)).
  destruct (head (sort_by le l)) as [y|].
  - destruct IH as [Hy Hle]. destruct (le x y) eqn:Hxy.
    + split; [left|]. intros c [->|Hc]%elem_of_cons; eauto.
    + assert (le y x = true) by (destruct (le_total x y); congruence).
      split; [by right|]. intros c [->|Hc]%elem_of_cons; eauto.
  - subst l. split; [left|]. by intros c ->%list_elem_of_singleton.
Qed.
End SortBy.

Lemma key_le_total (k1 k2 : bool * Z) : key_le k1 k2 = true ∨ key_le k2 k1 = true.
Proof.
  destruct k1 as [[] a], k2 as [[] b]; simpl; auto;
    destruct (Z.leb_spec a b), (Z.leb_spec b a); auto; lia.
Qed.

Lemma key_le_trans (k1 k2 k3 : bool * Z) :
  key_le k1 k2 = true → key_le k2 k3 = true → key_le k1 k3 = true.
Proof.
  destruct k1 as [[] a], k2 as [[] b], k3 as [[] c]; simpl; try done;
    rewrite !Z.leb_le; lia.
Qed.

Lemma key_le_fires (t c : timer) :
  key_le (next_key t) (next_key c) = true → fires_no_later (t_nextMs t) (t_nextMs c).
Proof.
  unfold next_key. destruct (t_nextMs t), (t_nextMs c); simpl; try done.
  by rewrite Z.leb_le.
Qed.

Lemma json_is_str_eq (v : json) (s : string) : json_is_str v s = true ↔ v = JStr s.
Proof.
  destruct v; simpl; try (split; discriminate).
  destruct (String.eqb_spec s0 s); split; congruence.
Qed.

(** The first candidate activates the unit and fires no later than any
    other timer that does. *)
Lemma candidates_head (unit : string) (timers : list timer) :
  match head (candidates_for unit timers) with
  | Some t => t ∈ timers ∧ t_activates t = JStr unit ∧
              ∀ c, c ∈ timers → t_activates c = JStr unit →
                   fires_no_later (t_nextMs t) (t_nextMs c)
  | None => ∀ c, c ∈ timers → t_activates c ≠ JStr unit
  end.
Proof.
  unfold candidates_for, sort_on.
  pose proof (sort_by_head (fun x y => key_le (next_key x) (next_key y))
                (fun x y => key_le_total _ _)
                (fun x y z => key_le_trans _ _ _)
                (List.filter (fun t => json_is_str (t_activates t) unit) timers)) as Hhead.
  destruct (head _) as [t|].
  - destruct Hhead as [Hin Hle].
    apply list_elem_of_In, filter_In in Hin as [Hin Hact].
    split_and!; [by apply list_elem_of_In|by apply json_is_str_eq|].
    intros c Hc Hcact. apply key_le_fires, Hle.
    apply list_elem_of_In, filter_In. split; [by apply list_elem_of_In|].
    by apply json_is_str_eq.
  - intros c Hc Hcact.
    assert (c ∈ List.filter (fun t => json_is_str (t_activates t) unit) timers) as Hin.
    { apply list_elem_of_In, filter_In. split; [by apply list_elem_of_In|].
      by apply json_is_str_eq. }
    rewrite Hhead in Hin. by apply elem_of_nil in Hin.
Qed.

(** Of two suffixes of one string, one is a suffix of the other. *)
Lemma endswith_both (a b s : string) :
  endswith a s = true → endswith b s = true →
  endswith a b = true ∨ endswith b a = true.
Proof.
  assert (∀ x, endswith x x = true) as Hrefl.
  { intros [|c x]; cbn [endswith]; by rewrite String.eqb_refl. }
  induction s as [|c s IH]; cbn [endswith].
  - rewrite !orb_false_r. intros <-%String.eqb_eq <-%String.eqb_eq. by left.
  - intros [Ha|Ha]%orb_true_iff [Hb|Hb]%orb_true_iff.
    + apply String.eqb_eq in Ha, Hb. subst. by left.
    + apply String.eqb_eq in Ha. subst a. right. cbn [endswith]. rewrite Hb.
      by rewrite orb_true_r.
    + apply String.eqb_eq in Hb. subst b. left. cbn [endswith]. rewrite Ha.
      by rewrite orb_true_r.
    + by apply IH.
Qed.

Lemma service_not_timer (unit : string) :
  endswith ".service" unit = true → endswith ".timer" unit = false.
Proof.
  intros Hs. destruct (endswith ".timer" unit) eqn:Ht; [|done].
  by destruct (endswith_both _ _ _ Hs Ht).
Qed.

Lemma schedule_for_unit_inr `{PyText} (w : world) (unit : string)
    (tr tr' : trace) (timers : list timer) :
  invalid_unit unit = false →
  list_timers w tr = (inr timers, tr') →
  schedule_for_unit w unit tr = (inr (schedule_of unit timers), tr').
Proof.
  intros Hv Ht. unfold schedule_for_unit. rewrite Hv, M_bind_eq, Ht. done.
Qed.

(** C4. For a unit with the service suffix, [schedule_for_unit] reports
    the timer that activates the unit and fires earliest, a timer without
    next fire counting as latest; with no such timer the timer name and the
    four schedule fields are null.  Of two timers for one service with
    next fire 5000 ms and none, the one with 5000 ms is reported. *)
Theorem service_timer_earliest `{PyText} (w : world) (unit : string)
    (tr tr' : trace) (timers : list timer) :
  invalid_unit unit = false →
  endswith ".service" unit = true →
  list_timers w tr = (inr timers, tr') →
  ∃ chosen : option timer,
    schedule_for_unit w unit tr = (inr (service_schedule unit chosen), tr') ∧
    match chosen with
    | Some t => t ∈ timers ∧ t_activates t = JStr unit ∧
                ∀ c, c ∈ timers → t_activates c = JStr unit →
                     fires_no_later (t_nextMs t) (t_nextMs c)
    | None => (∀ c, c ∈ timers → t_activates c ≠ JStr unit) ∧
              ∀ f, s_fields (service_schedule unit None) = Some f → no_schedule f
    end ∧
    (∀ t1 t2 : timer,
        t_activates t1 = JStr unit → t_activates t2 = JStr unit →
        t_nextMs t1 = Some 5000 → t_nextMs t2 = None →
        timers = [t1; t2] ∨ timers = [t2; t1] →
        chosen = Some t1).
Proof.
  intros Hv Hs Ht. exists (head (candidates_for unit timers)). split_and!.
  - rewrite (schedule_for_unit_inr w unit tr tr' timers Hv Ht).
    unfold schedule_of. by rewrite (service_not_timer unit Hs), Hs.
  - pose proof (candidates_head unit timers) as Hhead.
    destruct (head (candidates_for unit timers)); [done|].
    split; [done|]. by intros f [= <-].
  - intros t1 t2 H1%json_is_str_eq H2%json_is_str_eq Hn1 Hn2 [->| ->];
      unfold candidates_for, sort_on, sort_by, next_key; simpl;
      rewrite H1, H2; simpl; by rewrite Hn1, Hn2.
Qed.

Lemma service_timer_earliest_witness :
  (schedule_for_unit Demo.host "backup.service" [] =
     (inr Demo.backup_schedule, [ListTimers]) ∧
   f_timer <$> s_fields Demo.backup_schedule = Some (Some "backup.timer") ∧
   f_nextMs <$> s_fields Demo.backup_schedule = Some (Some 5000)) ∧
  ∃ chosen : option timer,
    schedule_for_unit Demo.host "backup.service" [] =
      (inr (service_schedule "backup.service" chosen), [ListTimers]) ∧
    match chosen with
    | Some t => t ∈ Demo.listing ∧ t_activates t = JStr "backup.service"
    | None => ∀ c, c ∈ Demo.listing → t_activates c ≠ JStr "backup.service"
    end.
Proof.
  split; [split_and!; vm_compute; reflexivity|].
  destruct (service_timer_earliest Demo.host "backup.service" [] [ListTimers] Demo.listing)
    as (chosen & Hsched & Hchosen & _).
  - reflexivity.
  - reflexivity.
  - vm_compute. reflexivity.
  - exists chosen. split; [exact Hsched|].
    destruct chosen as [t|].
    + destruct Hchosen as (Hin & Hact & _). split; [exact Hin|exact Hact].
    + destruct Hchosen as [Hnone _]. exact Hnone.
Defined.

(** ** Validation at the entry points *)









(** ** The filter by targets *)

Lemma dep_units_mono `{PyText} (lines : list string) :
  ∀ wanted wanted' : gset string,
    dep_units lines wanted = inr wanted' → wanted ⊆ wanted'.
Proof.
  induction lines as [|line lines IH]; intros wanted wanted' Hd; simpl in Hd.
  - by injection Hd as <-.
  - destruct (String.eqb _ ""); [by apply IH|].
    destruct (str_split 1 _) as [|u more]; [discriminate|].
    apply IH in Hd. destruct (UNIT_RE u); set_solver.
Qed.

(** When the loop over [targets] ends, every name it did not pass over is
    in [wanted]. *)
Lemma collect_wanted_inr `{PyText} (w : world) (targets : list string) :
  ∀ (wanted wanted' : gset string) (tr tr' : trace),
    collect_wanted w targets wanted tr = (inr wanted', tr') →
    wanted ⊆ wanted' ∧
    ∀ t, t ∈ targets → skipped_target t = false → t ∈ wanted'.
Proof.
  induction targets as [|t targets IH]; intros wanted wanted' tr tr' Hc; simpl in Hc.
  - apply mret_inr in Hc as [-> _]. split; [done|]. by intros t Ht%elem_of_nil.
  - destruct (skipped_target t) eqn:Hskip.
    + apply IH in Hc as [Hsub Hin]. split; [done|].
      intros t' [->|Ht']%elem_of_cons Hns; [congruence|by apply Hin].
    + M_inv Hc as deps tr1 Hdeps. M_inv Hc as wanted1 tr2 Hw.
      apply lift_inr in Hw as [Hw ->]. apply dep_units_mono in Hw.
      apply IH in Hc as [Hsub Hin].
      assert ({[t]} ∪ wanted ⊆ wanted') as Hall by (by etrans).
      split; [by etrans; [apply union_subseteq_r|]|].
      intros t' [->|Ht']%elem_of_cons Hns; [|by apply Hin].
      eapply elem_of_subseteq; [exact Hall|]. apply elem_of_union_l.
      by apply elem_of_singleton.
Qed.

Lemma collect_wanted_skipped `{PyText} (w : world) (targets : list string) :
  Forall (fun t => skipped_target t = true) targets →
  ∀ (wanted : gset string) (tr : trace),
    collect_wanted w targets wanted tr = (inr wanted, tr).
Proof.
  induction 1 as [|t targets Ht _ IH]; intros wanted tr; simpl; [done|].
  rewrite Ht. apply IH.
Qed.

(** C8 (as the code has it).  The full catalog is returned whenever the
    wanted set is empty, and it is empty only when every name of the filter
    is passed over (invalid, or without the target suffix).  A well-formed
    target name is itself put into the wanted set once its dependency query
    has succeeded, whatever the closure lists; the result is then the
    catalog restricted to the wanted set. *)
Theorem full_catalog_fallback `{PyText} (w : world) (targets : list string) (tr : trace) :
  (Forall (fun t => skipped_target t = true) targets →
   units_for_targets w targets tr = list_units w tr) ∧
  (∀ wanted tr1,
      collect_wanted w targets ∅ tr = (inr wanted, tr1) → wanted = ∅ →
      Forall (fun t => skipped_target t = true) targets ∧
      units_for_targets w targets tr = list_units w tr) ∧
  (∀ t items tr',
      t ∈ targets → skipped_target t = false →
      units_for_targets w targets tr = (inr items, tr') →
      ∃ wanted tr1 catalog,
        collect_wanted w targets ∅ tr = (inr wanted, tr1) ∧ t ∈ wanted ∧
        list_units w tr1 = (inr catalog, tr') ∧
        items = List.filter (fun u => bool_decide (u_unit u ∈ wanted)) catalog).
Proof.
  assert (Forall (fun t => skipped_target t = true) targets →
          units_for_targets w targets tr = list_units w tr) as Hskip.
  { intros Hall. unfold units_for_targets. destruct targets as [|t targets]; [done|].
    rewrite M_bind_eq, (collect_wanted_skipped w _ Hall). by case_decide. }
  split_and!; [done| |].
  - intros wanted tr1 Hc ->.
    apply collect_wanted_inr in Hc as [_ Hin].
    assert (Forall (fun t => skipped_target t = true) targets) as Hall.
    { apply Forall_forall. intros t Ht.
      destruct (skipped_target t) eqn:Hs; [done|]. by apply Hin in Ht. }
    auto.
  - intros t items tr' Ht Hns Hu. unfold units_for_targets in Hu.
    destruct targets as [|t0 targets]; [by apply elem_of_nil in Ht|].
    M_inv Hu as wanted tr1 Hc.
    pose proof (collect_wanted_inr w _ _ _ _ _ Hc) as [_ Hin].
    specialize (Hin t Ht Hns).
    case_decide as Hempty; [set_solver|].
    M_inv Hu as catalog tr2 Hcat. apply mret_inr in Hu as [-> ->].
    by exists wanted, tr1, catalog.
Qed.

Lemma full_catalog_fallback_witness :
  units_for_targets Demo.host ["bad name"; "backup.service"] [] = list_units Demo.host [] ∧
  ∃ wanted tr1 catalog,
    collect_wanted Demo.host ["timers.target"] ∅ [] = (inr wanted, tr1) ∧
    "timers.target" ∈ wanted ∧
    list_units Demo.host tr1 = (inr catalog, Demo.filtered_trace) ∧
    Demo.filtered_units = List.filter (fun u => bool_decide (u_unit u ∈ wanted)) catalog.
Proof.
  split.
  - apply (proj1 (full_catalog_fallback Demo.host ["bad name"; "backup.service"] [])).
    repeat constructor.
  - apply (proj2 (proj2 (full_catalog_fallback Demo.host ["timers.target"] []))
             "timers.target" Demo.filtered_units Demo.filtered_trace).
    + apply list_elem_of_singleton. reflexivity.
    + reflexivity.
    + vm_compute. reflexivity.
Defined.

(** C8 as written does not hold: for [a.target], well formed, absent from
    the closure the host lists and from the catalog, the result is the
    catalog restricted to the wanted set (here nothing), and where the
    dependency query fails, so does the request; neither is the full
    catalog. *)
Lemma a_target_not_full_catalog :
  skipped_target "a.target" = false ∧
  fst (units_for_targets Demo.host ["a.target"] []) = inr [] ∧
  fst (units_for_targets Demo.no_target_host ["a.target"] []) =
    inl (RuntimeError "Unit a.target not found.") ∧
  fst (list_units Demo.host []) = inr Demo.catalog ∧
  fst (list_units Demo.no_target_host []) = inr Demo.catalog ∧
  length Demo.catalog = 2%nat.
Proof. split_and!; vm_compute; reflexivity. Qed.

(** ** What reaches a command line *)

Section IssuesOnly.
Context (P : cmd -> Prop).

Lemma issues_ret {A} (Q : A -> Prop) (a : A) : Q a → issues_only P Q (mret a).
Proof.
  intros Ha tr. exists []. rewrite app_nil_r. split_and!; [done|constructor|].
  by intros a' [= <-].
Qed.

Lemma issues_raise {A} (Q : A -> Prop) (e : exn) : issues_only P Q (raise e).
Proof. intros tr. exists []. rewrite app_nil_r. split_and!; [done|constructor|done]. Qed.

Lemma issues_lift {A} (Q : A -> Prop) (x : exc A) :
  (∀ a, x = inr a → Q a) → issues_only P Q (lift x).
Proof. intros Hx tr. exists []. rewrite app_nil_r. split_and!; [done|constructor|done]. Qed.

Lemma issues_run `{PyText} (w : world) (c : cmd) :
  P c → issues_only P (fun _ => True) (run w c).
Proof. intros Hc tr. exists [c]. split_and!; [done|by repeat constructor|done]. Qed.

Lemma issues_bind {A B} (Q : A -> Prop) (R : B -> Prop) (m : M A) (f : A -> M B) :
  issues_only P Q m → (∀ a, Q a → issues_only P R (f a)) →
  issues_only P R (m ≫= f).
Proof.
  intros Hm Hf tr. destruct (Hm tr) as (cs & Htr & Hcs & HQ).
  rewrite M_bind_eq. destruct (m tr) as [[e|a] tr1]; simpl in *; subst tr1.
  - exists cs. by split_and!.
  - destruct (Hf a (HQ a eq_refl) (tr ++ cs)) as (cs' & Htr' & Hcs' & HR).
    exists (cs ++ cs'). rewrite app_assoc. split_and!; [done| |done].
    by apply Forall_app.
Qed.

Lemma issues_weaken {A} (Q Q' : A -> Prop) (m : M A) :
  issues_only P Q m → (∀ a, Q a → Q' a) → issues_only P Q' m.
Proof.
  intros Hm HQ tr. destruct (Hm tr) as (cs & Htr & Hcs & Ha).
  exists cs. split_and!; auto.
Qed.

Lemma issues_mapM {A B} (f : A -> M B) (l : list A) :
  Forall (fun x => issues_only P (fun _ => True) (f x)) l →
  issues_only P (fun _ => True) (mapM f l).
Proof.
  induction 1 as [|x l Hx _ IH]; cbn [mapM]; [by apply issues_ret|].
  eapply issues_bind; [exact Hx|]. intros y _.
  eapply issues_bind; [exact IH|]. intros ys _. by apply issues_ret.
Qed.
End IssuesOnly.

Lemma activated_unit_matches (a : json) (x : string) :
  activated_unit a = Some x → UNIT_RE x = true.
Proof.
  destruct a; try discriminate. simpl.
  destruct (negb _ && UNIT_RE s) eqn:Hs; [|discriminate].
  intros [= <-]. by apply andb_true_iff in Hs as [_ ?].
Qed.

Lemma valid_unit_matches (unit : string) : invalid_unit unit = false → UNIT_RE unit = true.
Proof.
  unfold invalid_unit. intros Hv.
  apply orb_false_iff in Hv as [_ Hv]. by apply negb_false_iff in Hv.
Qed.

Lemma cmd_matches_plain (c : cmd) :
  cmd_units c = [] → cmd_invocations c = [] → cmd_matches c.
Proof. intros Hu Hi. unfold cmd_matches. rewrite Hu, Hi. split; constructor. Qed.

Ltac issue c :=
  eapply (issues_bind _ (fun _ => True));
  [refine (issues_run _ _ c _)|intros ? _].

Lemma list_units_issues `{PyText} (w : world) :
  issues_only cmd_matches (fun _ => True) (list_units w).
Proof.
  unfold list_units.
  issue ListUnitFiles; [by apply cmd_matches_plain|].
  issue ListUnits; [by apply cmd_matches_plain|].
  by apply issues_ret.
Qed.

Lemma schedule_for_unit_issues `{PyText} (w : world) (unit : string) :
  issues_only cmd_matches (fun _ => True) (schedule_for_unit w unit).
Proof.
  unfold schedule_for_unit. destruct (invalid_unit unit); [apply issues_raise|].
  eapply (issues_bind _ (fun _ => True)); [|intros; by apply issues_ret].
  unfold list_timers.
  eapply (issues_bind _ (fun _ => True));
    [refine (issues_run _ _ ListTimers _); by apply cmd_matches_plain|].
  intros [items|] _; [|apply issues_raise].
  eapply (issues_bind _ (fun _ => True)); [by apply issues_lift|]. intros res _. by apply issues_ret.
Qed.

(** The log unit matches the pattern; nothing bounds its length. *)
Lemma resolve_log_unit_issues `{PyText} (w : world) (unit : string) :
  UNIT_RE unit = true →
  issues_only cmd_matches (fun lu => UNIT_RE lu = true) (resolve_log_unit w unit).
Proof.
  intros Hu. unfold resolve_log_unit.
  destruct (endswith ".timer" unit); [|by apply issues_ret].
  eapply issues_bind; [apply schedule_for_unit_issues|]. intros s _.
  apply issues_ret.
  destruct (activated_unit (schedule_activates s)) as [x|] eqn:Hx; [|done].
  by eapply activated_unit_matches.
Qed.

(** X2. Every command an entry point issues carries only unit names that
    match [UNIT_RE] and invocation identifiers that match
    [INVOCATION_RE], on every host and whether it returns or raises. *)
Lemma queries_match_patterns `{PyText} (w : world) :
  (∀ unit, issues_only cmd_matches (fun _ => True) (schedule_for_unit w unit)) ∧
  (∀ unit limit, issues_only cmd_matches (fun _ => True) (list_runs w unit limit)) ∧
  (∀ unit inv limit,
      issues_only cmd_matches (fun _ => True) (logs_for_invocation w unit inv limit)) ∧
  (∀ targets, issues_only cmd_matches (fun _ => True) (units_for_targets w targets)) ∧
  (∀ unit, issues_only cmd_matches (fun _ => True) (unit_detail w unit)).
Proof.
  split_and!.
  - apply schedule_for_unit_issues.
  - intros unit limit. unfold list_runs.
    destruct (invalid_unit unit) eqn:Hv; [apply issues_raise|].
    destruct (_ || _) eqn:Hlim; [apply issues_raise|].
    apply orb_false_iff in Hlim as [?%Z.ltb_ge ?%Z.ltb_ge].
    eapply issues_bind; [by apply resolve_log_unit_issues, valid_unit_matches|].
    intros lu Hlu.
    issue (JournalScan lu); [split; simpl; by repeat constructor|].
    eapply (issues_bind _ (fun ids => Forall (fun i => INVOCATION_RE i = true) ids)).
    { apply issues_lift. intros ids Hids.
      apply discover_invariant in Hids as (_ & Hre & _);
        [done|apply seen_nil|constructor|constructor|simpl; lia]. }
    intros ids Hids.
    eapply (issues_bind _ (fun _ => True)); [|intros; by apply issues_ret].
    apply issues_mapM. eapply Forall_impl; [exact Hids|]. simpl. intros inv Hinv.
    unfold fetch_run.
    issue (JournalInvocation lu inv); [split; simpl; by repeat constructor|].
    by apply issues_lift.
  - intros unit inv limit. unfold logs_for_invocation.
    destruct (invalid_unit unit) eqn:Hv; [apply issues_raise|].
    destruct (String.eqb inv "" || negb (INVOCATION_RE inv)) eqn:Hinv;
      [apply issues_raise|].
    apply orb_false_iff in Hinv as [_ Hinv%negb_false_iff].
    destruct (_ || _); [apply issues_raise|].
    eapply issues_bind; [by apply resolve_log_unit_issues, valid_unit_matches|].
    intros lu Hlu. refine (issues_run _ _ (JournalCat lu inv limit) _).
    split; simpl; by repeat constructor.
  - intros targets. unfold units_for_targets.
    destruct targets as [|t0 targets]; [apply list_units_issues|].
    eapply issues_bind with (Q := fun _ => True).
    + generalize (∅ : gset string). generalize (t0 :: targets).
      induction l as [|t l IH]; intros wanted; cbn [collect_wanted];
        [by apply issues_ret|].
      destruct (skipped_target t) eqn:Hskip; [apply IH|].
      apply orb_false_iff in Hskip as [Hv%valid_unit_matches _].
      issue (ListDependencies t); [split; simpl; by repeat constructor|].
      eapply (issues_bind _ (fun _ => True)); [by apply issues_lift|].
      intros wanted' _. apply IH.
    + intros wanted _. case_decide; [apply list_units_issues|].
      eapply (issues_bind _ (fun _ => True)); [apply list_units_issues|].
      intros; by apply issues_ret.
  - intros unit. unfold unit_detail.
    destruct (invalid_unit unit) eqn:Hv; [apply issues_raise|].
    apply valid_unit_matches in Hv.
    issue (ShowUnit unit); [split; simpl; by repeat constructor|].
    issue (CatUnit unit); [split; simpl; by repeat constructor|].
    by apply issues_ret.
Qed.

(** C6, at the input where the code departs from it: [x.timer] is a valid
    name, its timer activates a unit whose name matches the pattern and is
    205 characters long, and [list_runs] puts that name into the journal
    query although it fails the length test every entry point applies. *)
Theorem log_unit_length_unchecked :
  invalid_unit "x.timer" = false ∧
  UNIT_RE Demo.long_service = true ∧
  String.length Demo.long_service = 205%nat ∧
  invalid_unit Demo.long_service = true ∧
  fst (resolve_log_unit Demo.long_host "x.timer" []) = inr Demo.long_service ∧
  snd (list_runs Demo.long_host "x.timer" 10 []) =
    [ListTimers; JournalScan Demo.long_service] ∧
  snd (logs_for_invocation Demo.long_host "x.timer" Demo.inv_a 400 []) =
    [ListTimers; JournalCat Demo.long_service Demo.inv_a 400].
Proof. split_and!; vm_compute; reflexivity. Qed.


(** * More of the code *)

(** ** Sorting keeps the elements and puts them in order *)

Section SortedBy.
Context {A : Type} (le : A -> A -> bool).
Hypothesis le_total : ∀ x y, le x y = true ∨ le y x = true.
Hypothesis le_trans : ∀ x y z, le x y = true → le y z = true → le x z = true.

Lemma insert_by_perm (x : A) (l : list A) : insert_by le x l ≡ₚ x :: l.
Proof.
  induction l as [|y l IH]; simpl; [done|].
  destruct (le x y); [done|]. rewrite IH. apply Permutation_swap.
Qed.

Lemma sort_by_perm (l : list A) : sort_by le l ≡ₚ l.
Proof.
  induction l as [|x l IH]; simpl; [done|].
  rewrite insert_by_perm. by rewrite IH.
Qed.

Lemma insert_by_sorted (x : A) (l : list A) :
  StronglySorted (fun a b => le a b = true) l →
  StronglySorted (fun a b => le a b = true) (insert_by le x l).
Proof.
  induction 1 as [|y l Hs IH Hy]; simpl; [by repeat constructor|].
  destruct (le x y) eqn:Hxy.
  - constructor; [by constructor|]. constructor; [done|].
    eapply Forall_impl; [exact Hy|]. simpl. eauto.
  - assert (le y x = true) by (destruct (le_total x y); congruence).
    constructor; [done|]. rewrite insert_by_perm. by constructor.
Qed.

Lemma sort_by_sorted (l : list A) :
  StronglySorted (fun a b => le a b = true) (sort_by le l).
Proof.
  induction l as [|x l IH]; simpl; [constructor|]. by apply insert_by_sorted.
Qed.
End SortedBy.

Lemma string_leb_total (x y : string) : String.leb x y = true ∨ String.leb y x = true.
Proof. apply String.leb_total. Qed.

Lemma string_leb_trans (x y z : string) :
  String.leb x y = true → String.leb y z = true → String.leb x z = true.
Proof.
  intros Hxy%Is_true_true Hyz%Is_true_true. apply Is_true_true.
  by apply (transitivity (R := String.le) (y := y)).
Qed.

Lemma sort_on_perm {A} (key : A -> string) (l : list A) :
  sort_on String.leb key l ≡ₚ l.
Proof. apply sort_by_perm. Qed.

Lemma sort_on_sorted {A} (key : A -> string) (l : list A) :
  StronglySorted (fun a b => String.leb (key a) (key b) = true)
    (sort_on String.leb key l).
Proof.
  apply (sort_by_sorted (fun x y => String.leb (key x) (key y))).
  - intros x y. apply string_leb_total.
  - intros x y z. apply string_leb_trans.
Qed.

(** ** [usec_to_ms] *)

Lemma usec_to_ms_inv `{PyText} (v : json) (ms : Z) :
  usec_to_ms v = Some ms →
  (∃ n, py_int v = Some n ∧ 0 < n ∧ 1000 * ms ≤ n < 1000 * ms + 1000 ∧
        (ms = 0 ↔ n < 1000)) ∧
  0 ≤ ms.
Proof.
  unfold usec_to_ms. destruct (py_int v) as [n|] eqn:Hn; [|done].
  destruct (Z.leb_spec n 0); [done|]. intros [= <-].
  pose proof (Z.div_mod n 1000 ltac:(lia)).
  pose proof (Z.mod_pos_bound n 1000 ltac:(lia)).
  split.
  - exists n. split_and!; [done|lia|lia|lia|].
    split; [lia|]. intros Hlt. apply Z.div_small. lia.
  - apply Z.div_pos; lia.
Qed.

(** X11. [usec_to_ms] gives a value only for a positive integer reading
    [n] of its argument, and then the whole milliseconds of [n]: never
    negative, and 0 exactly for the positive readings below 1000; null,
    arrays and objects give nothing. *)
Theorem usec_to_ms_range `{PyText} (v : json) (ms : Z) :
  usec_to_ms v = Some ms →
  (∃ n, py_int v = Some n ∧ 0 < n ∧ 1000 * ms ≤ n < 1000 * ms + 1000 ∧
        (ms = 0 ↔ n < 1000)) ∧
  0 ≤ ms ∧
  v ≠ JNull ∧ (∀ xs, v ≠ JArr xs) ∧ (∀ kvs, v ≠ JObj kvs).
Proof.
  intros Hms. destruct (usec_to_ms_inv v ms Hms) as [Hn Hpos].
  split_and!; [done..| | |].
  - intros ->. discriminate.
  - intros xs ->. discriminate.
  - intros kvs ->. discriminate.
Qed.

Lemma usec_to_ms_range_witness :
  usec_to_ms (JStr "1700000300700999") = Some 1700000300700 ∧
  usec_to_ms (JInt 999) = Some 0 ∧ 0 ≤ 0.
Proof.
  split; [reflexivity|]. split; [reflexivity|].
  apply (usec_to_ms_range (JInt 999) 0). reflexivity.
Defined.

(** ** [list_timers] *)

Lemma build_timer_inr `{PyText} (it : raw_timer) (t : timer) :
  build_timer it = inr t →
  t_timer t = rt_unit it ∧ t_activates t = rt_activates it ∧
  t_nextMs t = usec_to_ms (rt_next it) ∧ t_lastMs t = usec_to_ms (rt_last it).
Proof.
  unfold build_timer. intros Ht.
  exc_inv Ht as ni Hni. exc_inv Ht as li Hli. by injection Ht as <-.
Qed.

Lemma mapM_build_timer `{PyText} (items : list raw_timer) :
  ∀ res, mapM build_timer items = inr res →
         Forall2 (fun it t => build_timer it = inr t) items res.
Proof.
  induction items as [|it items IH]; intros res Hres; cbn [mapM] in Hres.
  - injection Hres as <-. constructor.
  - exc_inv Hres as t Ht. exc_inv Hres as ts Hts. injection Hres as <-.
    constructor; auto.
Qed.

Lemma list_timers_inr `{PyText} (w : world) (tr tr' : trace) (timers : list timer) :
  list_timers w tr = (inr timers, tr') →
  tr' = tr ++ [ListTimers] ∧
  ∃ items res,
    w tr ListTimers = Exit0 (Some items) ∧
    Forall2 (fun it t => build_timer it = inr t) items res ∧
    timers = sort_on String.leb timer_key res.
Proof.
  unfold list_timers. intros Ht. M_inv Ht as out tr1 Hout.
  apply (run_inr w ListTimers) in Hout as [Hout ->].
  destruct out as [items|]; [|discriminate].
  M_inv Ht as res tr2 Hres. apply lift_inr in Hres as [Hres ->].
  apply mret_inr in Ht as [-> ->].
  split; [done|]. exists items, res. split_and!; [done| |done].
  by apply mapM_build_timer.
Qed.

(** X7. When [list_timers] returns, it has issued the one listing command
    and holds one timer for each element the host printed, with that
    element's name and target and the whole milliseconds of its microsecond
    times (never negative); the list is in ascending order of the names, a
    missing name counting as the empty one. *)
Theorem list_timers_sorted `{PyText} (w : world) (tr tr' : trace) (timers : list timer) :
  list_timers w tr = (inr timers, tr') →
  tr' = tr ++ [ListTimers] ∧
  StronglySorted (fun a b => String.leb (timer_key a) (timer_key b) = true) timers ∧
  Forall (fun t => (∀ ms, t_nextMs t = Some ms → 0 ≤ ms) ∧
                   (∀ ms, t_lastMs t = Some ms → 0 ≤ ms)) timers ∧
  ∃ items,
    w tr ListTimers = Exit0 (Some items) ∧
    (fun t => (t_timer t, t_activates t)) <$> timers ≡ₚ
    (fun it => (rt_unit it, rt_activates it)) <$> items.
Proof.
  intros Ht. apply list_timers_inr in Ht as (-> & items & res & Hw & Hres & ->).
  split_and!; [done|apply sort_on_sorted| |].
  - rewrite sort_on_perm. clear Hw.
    induction Hres as [|it t items res Ht _ IH]; constructor; [|done].
    apply build_timer_inr in Ht as (_ & _ & Hn & Hl).
    split; intros ms Hms; rewrite ?Hn, ?Hl in Hms;
      by apply usec_to_ms_inv in Hms as [_ ?].
  - exists items. split; [done|]. rewrite sort_on_perm. clear Hw.
    induction Hres as [|it t items res Ht _ IH]; [done|].
    apply build_timer_inr in Ht as (Hn & Ha & _).
    rewrite !fmap_cons, Hn, Ha. by constructor.
Qed.

Lemma list_timers_sorted_witness :
  list_timers Demo.host [] = (inr Demo.listing, [ListTimers]) ∧
  t_timer <$> Demo.listing = [Some "backup.timer"; Some "weekly.timer"] ∧
  StronglySorted (fun a b => String.leb (timer_key a) (timer_key b) = true) Demo.listing.
Proof.
  split; [vm_compute; reflexivity|]. split; [reflexivity|].
  apply (list_timers_sorted Demo.host [] [ListTimers] Demo.listing).
  vm_compute. reflexivity.
Defined.

(** ** The catalog *)

Lemma list_units_inr `{PyText} (w : world) (tr tr' : trace) (items : list unit_item) :
  list_units w tr = (inr items, tr') →
  tr' = tr ++ [ListUnitFiles; ListUnits] ∧
  ∃ unit_files units,
    w tr ListUnitFiles = Exit0 unit_files ∧
    w (tr ++ [ListUnitFiles]) ListUnits = Exit0 units ∧
    items = sort_on String.leb u_unit
              (merge_unit (parse_unit_files unit_files) (parse_units units) <$>
               elements (dom (parse_unit_files unit_files) ∪ dom (parse_units units))).
Proof.
  unfold list_units. intros Hl. M_inv Hl as uf tr1 Huf. M_inv Hl as us tr2 Hus.
  apply (run_inr w ListUnitFiles) in Huf as [Huf ->].
  apply (run_inr w ListUnits) in Hus as [Hus ->].
  apply mret_inr in Hl as [-> ->]. rewrite <- app_assoc. split; [done|].
  by exists uf, us.
Qed.

Lemma merged_units (a : gmap string string) (b : gmap string unit_row)
    (names : list string) :
  u_unit <$> (merge_unit a b <$> names) = names.
Proof. induction names as [|n names IH]; [done|]. rewrite !fmap_cons, IH. done. Qed.

(** X8. When [list_units] returns, it has issued the two listing commands
    in order, and the catalog is in ascending order of the unit names, has
    no name twice, holds exactly the names of the one listing or the
    other, and gives each unit the enable state of the first listing and
    the load, active and sub state and description of the second, where
    they have the unit. *)
Theorem catalog_sorted_union `{PyText} (w : world) (tr tr' : trace)
    (items : list unit_item) :
  list_units w tr = (inr items, tr') →
  tr' = tr ++ [ListUnitFiles; ListUnits] ∧
  StronglySorted (fun x y => String.leb (u_unit x) (u_unit y) = true) items ∧
  NoDup (u_unit <$> items) ∧
  ∃ unit_files units,
    w tr ListUnitFiles = Exit0 unit_files ∧
    w (tr ++ [ListUnitFiles]) ListUnits = Exit0 units ∧
    ∀ item, item ∈ items ↔
            (is_Some (parse_unit_files unit_files !! u_unit item) ∨
             is_Some (parse_units units !! u_unit item)) ∧
            item = merge_unit (parse_unit_files unit_files) (parse_units units)
                     (u_unit item).
Proof.
  intros Hl. apply list_units_inr in Hl as (-> & uf & us & Huf & Hus & ->).
  set (a := parse_unit_files uf). set (b := parse_units us).
  split_and!; [done|apply sort_on_sorted| |].
  - rewrite sort_on_perm, merged_units. apply NoDup_elements.
  - exists uf, us. split_and!; [done..|]. intros item.
    rewrite sort_on_perm, list_elem_of_fmap. fold a b. split.
    + intros (name & -> & Hname). simpl.
      apply elem_of_elements, elem_of_union in Hname.
      rewrite !elem_of_dom in Hname. done.
    + intros [Hname Hitem]. exists (u_unit item). split; [done|].
      apply elem_of_elements, elem_of_union. by rewrite !elem_of_dom.
Qed.

Lemma catalog_sorted_union_witness :
  list_units Demo.host [] = (inr Demo.catalog, [ListUnitFiles; ListUnits]) ∧
  u_unit <$> Demo.catalog = ["backup.service"; "backup.timer"] ∧
  NoDup (u_unit <$> Demo.catalog).
Proof.
  split; [vm_compute; reflexivity|]. split; [reflexivity|].
  apply (catalog_sorted_union Demo.host [] [ListUnitFiles; ListUnits] Demo.catalog).
  vm_compute. reflexivity.
Defined.

(** ** Schedules *)

Lemma index_timers_from (name : string) (timers : list timer) :
  name ≠ "" →
  ∀ m : gmap string timer,
    foldl (fun m t =>
             match t_timer t with
             | Some n => if String.eqb n "" then m else <[n := t]> m
             | None => m
             end) m timers !! name =
    match last_named name timers with
    | Some t => Some t
    | None => m !! name
    end.
Proof.
  intros Hname. unfold last_named.
  induction timers as [|t timers IH]; intros m; simpl; [done|].
  rewrite IH. case_bool_decide as Ht.
  - rewrite last_cons. destruct (last _); [done|].
    rewrite Ht. destruct (String.eqb_spec name ""); [done|].
    by rewrite lookup_insert_eq.
  - destruct (last _); [done|].
    destruct (t_timer t) as [n|]; [|done].
    destruct (String.eqb_spec n ""); [done|].
    rewrite lookup_insert_ne; [done|]. congruence.
Qed.

(** A name listed more than once is indexed at its last entry. *)
Lemma index_timers_last (name : string) (timers : list timer) :
  name ≠ "" → index_timers timers !! name = last_named name timers.
Proof.
  intros Hname. unfold index_timers. rewrite (index_timers_from name timers Hname).
  by destruct (last_named name timers).
Qed.

Lemma valid_unit_nonempty (unit : string) : invalid_unit unit = false → unit ≠ "".
Proof. intros Hv ->. discriminate. Qed.

Lemma schedule_for_unit_cases `{PyText} (w : world) (unit : string) (tr : trace) :
  invalid_unit unit = false →
  snd (schedule_for_unit w unit tr) = tr ++ [ListTimers] ∧
  (∀ e, fst (list_timers w tr) = inl e → fst (schedule_for_unit w unit tr) = inl e) ∧
  (∀ timers, fst (list_timers w tr) = inr timers →
     ∃ s, fst (schedule_for_unit w unit tr) = inr s ∧ s_unit s = unit ∧
          (endswith ".timer" unit = true →
           s = timer_schedule unit (last_named unit timers) ∧
           (last_named unit timers = None →
            ∀ f, s_fields s = Some f →
                 f_timer f = Some unit ∧ f_activates f = JNull ∧ f_nextMs f = None ∧
                 f_nextIso f = None ∧ f_lastMs f = None ∧ f_lastIso f = None)) ∧
          (endswith ".timer" unit = false → endswith ".service" unit = false →
           s_kind s = KOther ∧ s_fields s = None)).
Proof.
  intros Hv. unfold schedule_for_unit. rewrite Hv, M_bind_eq.
  assert (snd (list_timers w tr) = tr ++ [ListTimers]) as Htr.
  { unfold list_timers. rewrite M_bind_eq.
    destruct (run w ListTimers tr) as [[e|out] tr1] eqn:Hrun.
    - unfold run in Hrun. by injection Hrun as _ <-.
    - unfold run in Hrun. injection Hrun as _ <-.
      destruct out as [items|]; [|done]. rewrite M_bind_eq. unfold lift.
      by destruct (mapM build_timer items). }
  destruct (list_timers w tr) as [[e|timers] tr1]; simpl in *; subst tr1.
  - split_and!; [done|by intros e' [= <-]|discriminate].
  - split_and!; [done|discriminate|]. intros timers' [= <-].
    exists (schedule_of unit timers). split_and!; [done| | |].
    + unfold schedule_of. by repeat destruct (endswith _ unit).
    + intros Ht. unfold schedule_of.
      rewrite Ht, (index_timers_last unit timers (valid_unit_nonempty unit Hv)).
      split; [done|]. intros Hnone f. rewrite Hnone. by intros [= <-].
    + intros Ht Hs. unfold schedule_of. by rewrite Ht, Hs.
Qed.

(** X9. For a valid name [schedule_for_unit] issues the timer listing and
    nothing else, whatever the suffix, and fails as the listing fails.  A
    name ending in [.timer] is reported as its own timer with the target
    and times of the last listing entry of that name, null when there is
    none; a name ending in neither [.timer] nor [.service] is of kind
    [other] and has no schedule keys at all. *)
Theorem schedule_by_suffix `{PyText} (w : world) (unit : string) (tr : trace) :
  invalid_unit unit = false →
  snd (schedule_for_unit w unit tr) = tr ++ [ListTimers] ∧
  (∀ e, fst (list_timers w tr) = inl e → fst (schedule_for_unit w unit tr) = inl e) ∧
  (∀ timers, fst (list_timers w tr) = inr timers →
     ∃ s, fst (schedule_for_unit w unit tr) = inr s ∧ s_unit s = unit ∧
          (endswith ".timer" unit = true →
           s = timer_schedule unit (last_named unit timers) ∧
           (last_named unit timers = None →
            ∀ f, s_fields s = Some f →
                 f_timer f = Some unit ∧ f_activates f = JNull ∧ f_nextMs f = None ∧
                 f_nextIso f = None ∧ f_lastMs f = None ∧ f_lastIso f = None)) ∧
          (endswith ".timer" unit = false → endswith ".service" unit = false →
           s_kind s = KOther ∧ s_fields s = None)).
Proof. apply schedule_for_unit_cases. Qed.

Lemma schedule_by_suffix_witness :
  snd (schedule_for_unit Demo.host "dbus.socket" []) = [] ++ [ListTimers] ∧
  fst (schedule_for_unit Demo.host "backup.timer" []) =
    inr (timer_schedule "backup.timer" (last_named "backup.timer" Demo.listing)).
Proof.
  split.
  - apply (schedule_by_suffix Demo.host "dbus.socket" []). reflexivity.
  - destruct (schedule_by_suffix Demo.host "backup.timer" []) as (_ & _ & Hs);
      [reflexivity|].
    destruct (Hs Demo.listing) as (s & Hfst & _ & Htimer & _);
      [vm_compute; reflexivity|].
    rewrite Hfst. f_equal. apply Htimer. reflexivity.
Defined.

Lemma resolve_log_unit_cases `{PyText} (w : world) (unit : string) (tr : trace) :
  (endswith ".timer" unit = false → resolve_log_unit w unit tr = (inr unit, tr)) ∧
  (∀ lu tr', resolve_log_unit w unit tr = (inr lu, tr') →
     lu = unit ∨
     (endswith ".timer" unit = true ∧ UNIT_RE lu = true ∧ tr' = tr ++ [ListTimers] ∧
      ∃ timers t, fst (list_timers w tr) = inr timers ∧
                  last_named unit timers = Some t ∧ t_activates t = JStr lu)).
Proof.
  unfold resolve_log_unit. split.
  - by intros ->.
  - intros lu tr' Hr. destruct (endswith ".timer" unit) eqn:Ht.
    2:{ apply mret_inr in Hr as [-> _]. by left. }
    M_inv Hr as s tr1 Hs. apply mret_inr in Hr as [-> ->].
    destruct (activated_unit (schedule_activates s)) as [x|] eqn:Hx; [|by left].
    right. simpl.
    assert (invalid_unit unit = false) as Hv.
    { unfold schedule_for_unit in Hs. by destruct (invalid_unit unit). }
    destruct (schedule_for_unit_cases w unit tr Hv) as (Htr & _ & Hok).
    rewrite Hs in Htr. simpl in Htr. subst tr1.
    destruct (list_timers w tr) as [[e|timers] tr2] eqn:Hl.
    { unfold schedule_for_unit in Hs. rewrite Hv, M_bind_eq, Hl in Hs. discriminate. }
    destruct (Hok timers eq_refl) as (s' & Hs' & _ & Htimer & _).
    rewrite Hs in Hs'. injection Hs' as <-. destruct (Htimer Ht) as [-> _].
    split_and!; [done|by eapply activated_unit_matches|done|].
    unfold schedule_activates, timer_schedule in Hx. simpl in Hx.
    destruct (last_named unit timers) as [t|] eqn:Hlast; [|discriminate].
    exists timers, t. split; [done|]. split; [done|]. simpl in Hx.
    destruct (t_activates t) as [| | | |a| |]; try discriminate. simpl in Hx.
    destruct (_ && _); [|discriminate]. congruence.
Qed.

(** X10. For a name that does not end in [.timer] the log unit is the name
    itself and no command is issued.  Whenever [resolve_log_unit] returns,
    the log unit is the name it was given or, for a timer, the target of
    the last listing entry of that name, a text that matches the unit
    pattern. *)
Theorem log_unit_cases `{PyText} (w : world) (unit : string) (tr : trace) :
  (endswith ".timer" unit = false → resolve_log_unit w unit tr = (inr unit, tr)) ∧
  (∀ lu tr', resolve_log_unit w unit tr = (inr lu, tr') →
     lu = unit ∨
     (endswith ".timer" unit = true ∧ UNIT_RE lu = true ∧ tr' = tr ++ [ListTimers] ∧
      ∃ timers t, fst (list_timers w tr) = inr timers ∧
                  last_named unit timers = Some t ∧ t_activates t = JStr lu)).
Proof. apply resolve_log_unit_cases. Qed.

Lemma log_unit_cases_witness :
  resolve_log_unit Demo.host "backup.service" [ListUnits] = (inr "backup.service", [ListUnits]) ∧
  fst (resolve_log_unit Demo.host "backup.timer" []) = inr "backup.service".
Proof.
  split.
  - apply (log_unit_cases Demo.host "backup.service" [ListUnits]). reflexivity.
  - vm_compute. reflexivity.
Defined.

(** ** The commands of [list_runs] *)

Lemma mapM_fetch_run_trace `{PyText} (w : world) (log_unit : string) (ids : list string) :
  ∀ (tr tr' : trace) (runs : list run_summary),
    mapM (fetch_run w log_unit) ids tr = (inr runs, tr') →
    tr' = tr ++ (JournalInvocation log_unit <$> ids).
Proof.
  induction ids as [|inv ids IH]; intros tr tr' runs Hruns; cbn [mapM] in Hruns.
  - apply mret_inr in Hruns as [_ ->]. by rewrite app_nil_r.
  - M_inv Hruns as r tr1 Hr. M_inv Hruns as rs tr2 Hrs.
    apply mret_inr in Hruns as [_ ->]. apply IH in Hrs as ->.
    unfold fetch_run in Hr. M_inv Hr as raw tr0 Hraw.
    apply (run_inr w (JournalInvocation log_unit inv)) in Hraw as [_ ->].
    apply lift_inr in Hr as [_ ->]. by rewrite <- app_assoc.
Qed.

(** X3. When [list_runs] returns, the commands it has issued are: the timer
    listing, only if the unit is a timer; the scan of the log unit; then one
    query for each discovered identifier, in discovery order and no other.
    The runs come in that same order, so there are at most [limit + 2]
    commands. *)
Theorem history_commands `{PyText} (w : world) (unit : string) (limit : Z)
    (tr tr' : trace) (log_unit : string) (runs : list run_summary) :
  list_runs w unit limit tr = (inr (log_unit, runs), tr') →
  ∃ tr1 scan,
    (tr1 = tr ∨ endswith ".timer" unit = true ∧ tr1 = tr ++ [ListTimers]) ∧
    w tr1 (JournalScan log_unit) = Exit0 scan ∧
    discover limit scan [] ∅ = inr (invocationId <$> runs) ∧
    tr' = tr1 ++ JournalScan log_unit ::
            (JournalInvocation log_unit <$> (invocationId <$> runs)) ∧
    Z.of_nat (length tr') ≤ Z.of_nat (length tr) + limit + 2.
Proof.
  intros Hrun.
  apply list_runs_inr in Hrun as (_ & Hlimit & tr1 & scan & ids & Hlu & Hscan & Hids & Hruns).
  pose proof (mapM_fetch_run_trace _ _ _ _ _ _ Hruns) as ->.
  apply mapM_fetch_run in Hruns as [<- _].
  pose proof Hids as Hinv.
  apply discover_invariant in Hinv as (_ & _ & Hlen);
    [|apply seen_nil|constructor|constructor|simpl; lia].
  assert (tr1 = tr ∨ endswith ".timer" unit = true ∧ tr1 = tr ++ [ListTimers]) as Htr1.
  { destruct (resolve_log_unit_cases w unit tr) as [Hplain Hany].
    destruct (endswith ".timer" unit) eqn:Ht.
    - destruct (Hany _ _ Hlu) as [->|(_ & _ & -> & _)]; [|by right].
      unfold resolve_log_unit in Hlu. rewrite Ht in Hlu.
      M_inv Hlu as s tr2 Hs. apply mret_inr in Hlu as [_ ->].
      right. split; [done|].
      assert (invalid_unit unit = false) as Hv.
      { unfold schedule_for_unit in Hs. by destruct (invalid_unit unit). }
      destruct (schedule_for_unit_cases w unit tr Hv) as (Htr & _).
      by rewrite Hs in Htr.
    - rewrite (Hplain eq_refl) in Hlu. injection Hlu as _ <-. by left. }
  exists tr1, scan. split_and!; [done..| |].
  - by rewrite <- app_assoc.
  - rewrite !length_app, !length_fmap in *. simpl.
    destruct Htr1 as [->|[_ ->]]; rewrite ?length_app; simpl; lia.
Qed.

Lemma history_commands_witness :
  Demo.history_trace =
    [ListTimers; JournalScan "backup.service";
     JournalInvocation "backup.service" Demo.inv_c;
     JournalInvocation "backup.service" Demo.inv_b] ∧
  Z.of_nat (length Demo.history_trace) ≤ Z.of_nat (length (@nil cmd)) + 2 + 2.
Proof.
  split; [reflexivity|].
  destruct (history_commands Demo.host "backup.timer" 2 [] Demo.history_trace
              "backup.service" Demo.history_runs) as (tr1 & scan & _ & _ & _ & _ & Hlen).
  - vm_compute. reflexivity.
  - exact Hlen.
Defined.

(** X4. With a valid unit name, [list_runs] refuses a limit outside 1..50
    and [logs_for_invocation] refuses an invocation identifier that is not
    32 characters of 0-9a-f and then a limit outside 1..5000, each with its
    own [ValueError] and before any command is issued. *)
Theorem limits_checked_first `{PyText} (w : world) (unit : string) (tr : trace) :
  invalid_unit unit = false →
  (∀ limit, limit < 1 ∨ 50 < limit →
     list_runs w unit limit tr = (inl (ValueError "invalid limit"), tr)) ∧
  (∀ inv limit, INVOCATION_RE inv = false →
     logs_for_invocation w unit inv limit tr =
       (inl (ValueError "invalid invocation"), tr)) ∧
  (∀ inv limit, INVOCATION_RE inv = true → limit < 1 ∨ 5000 < limit →
     logs_for_invocation w unit inv limit tr = (inl (ValueError "invalid limit"), tr)).
Proof.
  intros Hv. split_and!.
  - intros limit Hl. unfold list_runs. rewrite Hv.
    assert ((limit <? 1) || (50 <? limit) = true) as ->; [|done].
    apply orb_true_iff. rewrite !Z.ltb_lt. done.
  - intros inv limit Hinv. unfold logs_for_invocation.
    by rewrite Hv, Hinv, orb_true_r.
  - intros inv limit Hinv Hl. unfold logs_for_invocation. rewrite Hv, Hinv.
    assert (String.eqb inv "" = false) as ->.
    { destruct (String.eqb_spec inv "") as [->|]; [discriminate|done]. }
    assert ((limit <? 1) || (5000 <? limit) = true) as ->; [|done].
    apply orb_true_iff. rewrite !Z.ltb_lt. done.
Qed.

Lemma limits_checked_first_witness :
  list_runs Demo.host "backup.service" 51 [] = (inl (ValueError "invalid limit"), []) ∧
  logs_for_invocation Demo.host "backup.service" "ABCDEF" 400 [] =
    (inl (ValueError "invalid invocation"), []) ∧
  logs_for_invocation Demo.host "backup.service" Demo.inv_a 0 [] =
    (inl (ValueError "invalid limit"), []).
Proof.
  destruct (limits_checked_first Demo.host "backup.service" []) as (H1 & H2 & H3);
    [reflexivity|].
  split; [apply H1; lia|]. split; [apply H2; reflexivity|].
  apply H3; [reflexivity|lia].
Defined.

(** ** When aggregation fails *)

Lemma aggregate_record_readable `{PyText} (a : run_acc) (e : json) :
  if readable_line (Parsed e)
  then ∃ a', aggregate_record a e = inr a'
  else aggregate_record a e = inl AttributeError.
Proof.
  destruct e as [| | | | | |kvs]; try reflexivity.
  unfold aggregate_record, readable_line. simpl.
  destruct (is_text _) eqn:Ht.
  - destruct (upd_status_text (run_status a) _ Ht) as [s ->]. simpl. eauto.
  - unfold upd_status, message_text.
    destruct (default JNull (assoc_last "MESSAGE" kvs)) as [| | | |s| |];
      simpl in *; try discriminate; by rewrite ?(negb_false_iff _) in Ht; rewrite ?Ht.
Qed.

(** X5. The loop over the records of a run raises exactly when one of its
    lines parses to something that is not an object, or to an object whose
    message is neither absent, empty nor a text; the exception is then
    [AttributeError], whatever the other lines hold.  Blank lines and lines
    that do not parse never make it fail. *)
Theorem aggregation_fails_iff `{PyText} (a : run_acc) (lines : list jline) :
  (Forall (fun l => readable_line l = true) lines → ∃ a', aggregate a lines = inr a') ∧
  (Exists (fun l => readable_line l = false) lines →
   aggregate a lines = inl AttributeError).
Proof.
  split; [intros Hall; by apply aggregate_total|].
  intros Hex. revert a. induction lines as [|line lines IH]; intros a.
  - by apply Exists_nil in Hex.
  - apply Exists_cons in Hex.
    destruct line as [| |e]; cbn [aggregate].
    + destruct Hex as [?|Hex]; [done|by apply IH].
    + destruct Hex as [?|Hex]; [done|by apply IH].
    + pose proof (aggregate_record_readable a e) as Hrec.
      destruct (readable_line (Parsed e)).
      * destruct Hrec as [a' ->]. destruct Hex as [?|Hex]; [done|].
        simpl. by apply IH.
      * by rewrite Hrec.
Qed.

(** ** The status by what the messages hold *)

Lemma message_text_lowered `{PyText} (msg : json) :
  is_text msg = true → message_text msg = inr (lowered msg).
Proof.
  intros Ht. destruct msg; try apply message_text_str;
    unfold message_text, is_text, lowered in *;
    apply negb_true_iff in Ht; by rewrite Ht.
Qed.

Lemma classify_cases (prev : status) (m : string) :
  classify prev m =
  if failure_text m then Failed
  else if success_text m then (if decide (prev = Failed) then Failed else Success)
  else prev.
Proof.
  unfold classify, failure_text, success_text.
  destruct (_ || _ || _); [done|]. destruct (_ || _); [|done].
  by destruct (decide (prev = Failed)) as [->|].
Qed.

Lemma fold_status_content `{PyText} (msgs : list json) :
  Forall (fun m => is_text m = true) msgs →
  ∀ prev,
    fold_status prev msgs =
    inr (if existsb failure_text (lowered <$> msgs) then Failed
         else if existsb success_text (lowered <$> msgs)
              then (if decide (prev = Failed) then Failed else Success)
              else prev).
Proof.
  induction 1 as [|msg msgs Hm _ IH]; intros prev; [done|].
  cbn [fold_status]. unfold upd_status. rewrite (message_text_lowered msg Hm).
  cbn [mbind exc_bind mret exc_ret]. rewrite IH, classify_cases, fmap_cons.
  cbn [existsb].
  destruct (failure_text (lowered msg)); cbn [orb].
  { by repeat (destruct (existsb _ _)). }
  destruct (existsb failure_text _); [done|].
  destruct (success_text (lowered msg)); cbn [orb]; [|done].
  destruct (decide (prev = Failed)) as [->|]; by destruct (existsb success_text _).
Qed.

Lemma existsb_perm {A} (f : A -> bool) (l l' : list A) :
  l ≡ₚ l' → existsb f l = existsb f l'.
Proof.
  induction 1 as [|x l l' _ IH|x y l|l1 l2 l3 _ IH1 _ IH2]; simpl.
  - done.
  - by rewrite IH.
  - by destruct (f x), (f y).
  - congruence.
Qed.

(** X6. Over messages that are absent, empty or text, the status of a run
    depends only on which messages there are, not on their order: it is
    [failed] if any lowercased message holds "failed", "error" or "exited";
    otherwise [success] if any holds "deactivated successfully" or starts
    with "finished "; otherwise [unknown]. *)
Theorem status_by_content `{PyText} (msgs : list json) :
  Forall (fun m => is_text m = true) msgs →
  fold_status Unknown msgs = inr (final_status (lowered <$> msgs)) ∧
  ∀ msgs', msgs ≡ₚ msgs' → fold_status Unknown msgs' = fold_status Unknown msgs.
Proof.
  intros Hall. split.
  - rewrite (fold_status_content msgs Hall). unfold final_status.
    by repeat (destruct (existsb _ _)).
  - intros msgs' Hperm.
    assert (Forall (fun m => is_text m = true) msgs') as Hall' by (by rewrite <- Hperm).
    rewrite (fold_status_content msgs Hall), (fold_status_content msgs' Hall').
    by rewrite !(existsb_perm _ (lowered <$> msgs') (lowered <$> msgs))
      by (by rewrite Hperm).
Qed.

Lemma status_by_content_witness :
  fold_status Unknown [JStr "Finished backup"; JNull; JStr "Main process exited"] =
    inr Failed ∧
  fold_status Unknown [JStr "Main process exited"; JStr "Finished backup"; JNull] =
  fold_status Unknown [JStr "Finished backup"; JNull; JStr "Main process exited"].
Proof.
  destruct (status_by_content [JStr "Finished backup"; JNull; JStr "Main process exited"])
    as [Hfinal Hperm]; [repeat constructor|].
  split; [exact Hfinal|]. apply Hperm. symmetry.
  apply (Permutation_cons_append [JStr "Finished backup"; JNull]
           (JStr "Main process exited")).
Defined.

(** ** No result after a failed command *)

Lemma all_exit0_app (w : world) (cs cs' : list cmd) :
  ∀ tr, all_exit0 w tr cs → all_exit0 w (tr ++ cs) cs' → all_exit0 w tr (cs ++ cs').
Proof.
  induction cs as [|c cs IH]; intros tr Hcs Hcs'; simpl in *.
  - by rewrite app_nil_r in Hcs'.
  - destruct Hcs as [Hc Hcs]. split; [done|]. apply IH; [done|].
    by rewrite <- app_assoc.
Qed.

Section ReturnsAfterExit0.
Context `{PyText} (w : world).

Lemma rae_ret {A} (a : A) : returns_after_exit0 w (mret a).
Proof.
  intros tr a' tr' [_ ->]%mret_inr. exists []. by rewrite app_nil_r.
Qed.

Lemma rae_raise {A} (e : exn) : returns_after_exit0 w (raise e : M A).
Proof. intros tr a tr'. discriminate. Qed.

Lemma rae_lift {A} (x : exc A) : returns_after_exit0 w (lift x).
Proof.
  intros tr a tr' [_ ->]%lift_inr. exists []. by rewrite app_nil_r.
Qed.

Lemma rae_run (c : cmd) : returns_after_exit0 w (run w c).
Proof.
  intros tr out tr' [Hout ->]%run_inr. exists [c]. split; [done|].
  simpl. eauto.
Qed.

Lemma rae_bind {A B} (m : M A) (f : A -> M B) :
  returns_after_exit0 w m → (∀ a, returns_after_exit0 w (f a)) →
  returns_after_exit0 w (m ≫= f).
Proof.
  intros Hm Hf tr b tr' Hb. M_inv Hb as a tr1 Ha.
  destruct (Hm _ _ _ Ha) as (cs & -> & Hcs).
  destruct (Hf _ _ _ _ Hb) as (cs' & -> & Hcs').
  exists (cs ++ cs'). split; [by rewrite app_assoc|]. by apply all_exit0_app.
Qed.

Lemma rae_mapM {A B} (f : A -> M B) (l : list A) :
  (∀ x, returns_after_exit0 w (f x)) → returns_after_exit0 w (mapM f l).
Proof.
  intros Hf. induction l as [|x l IH]; cbn [mapM]; [apply rae_ret|].
  apply rae_bind; [done|]. intros y.
  apply rae_bind; [done|]. intros ys. apply rae_ret.
Qed.

Lemma rae_list_units : returns_after_exit0 w (list_units w).
Proof.
  unfold list_units.
  apply rae_bind; [apply (rae_run ListUnitFiles)|]. intros uf.
  apply rae_bind; [apply (rae_run ListUnits)|]. intros us. apply rae_ret.
Qed.

Lemma rae_schedule_for_unit (unit : string) :
  returns_after_exit0 w (schedule_for_unit w unit).
Proof.
  unfold schedule_for_unit. destruct (invalid_unit unit); [apply rae_raise|].
  apply rae_bind; [|intros; apply rae_ret]. unfold list_timers.
  apply rae_bind; [apply (rae_run ListTimers)|]. intros [items|]; [|apply rae_raise].
  apply rae_bind; [apply rae_lift|]. intros; apply rae_ret.
Qed.

Lemma rae_resolve_log_unit (unit : string) :
  returns_after_exit0 w (resolve_log_unit w unit).
Proof.
  unfold resolve_log_unit. destruct (endswith ".timer" unit); [|apply rae_ret].
  apply rae_bind; [apply rae_schedule_for_unit|]. intros; apply rae_ret.
Qed.

Lemma rae_collect_wanted (targets : list string) :
  ∀ wanted, returns_after_exit0 w (collect_wanted w targets wanted).
Proof.
  induction targets as [|t targets IH]; intros wanted; cbn [collect_wanted];
    [apply rae_ret|].
  destruct (skipped_target t); [apply IH|].
  apply rae_bind; [apply (rae_run (ListDependencies t))|]. intros deps.
  apply rae_bind; [apply rae_lift|]. intros wanted'. apply IH.
Qed.
End ReturnsAfterExit0.

(** X13. No function of the backend returns a result built on a failed
    command: whenever one of them returns, every command it has issued
    exited with status 0.  A non-zero exit or a timeout of any command ends
    the request with an exception; nothing partial comes back. *)
Theorem no_result_after_failure `{PyText} (w : world) :
  returns_after_exit0 w (list_units w) ∧
  returns_after_exit0 w (list_targets w) ∧
  returns_after_exit0 w (list_timers w) ∧
  (∀ unit, returns_after_exit0 w (schedule_for_unit w unit)) ∧
  (∀ unit limit, returns_after_exit0 w (list_runs w unit limit)) ∧
  (∀ unit inv limit, returns_after_exit0 w (logs_for_invocation w unit inv limit)) ∧
  (∀ targets, returns_after_exit0 w (units_for_targets w targets)) ∧
  (∀ unit, returns_after_exit0 w (unit_detail w unit)).
Proof.
  split_and!.
  - apply rae_list_units.
  - unfold list_targets.
    apply rae_bind; [apply (rae_run w ListTargets)|]. intros; apply rae_ret.
  - unfold list_timers.
    apply rae_bind; [apply (rae_run w ListTimers)|]. intros [items|]; [|apply rae_raise].
    apply rae_bind; [apply rae_lift|]. intros; apply rae_ret.
  - apply rae_schedule_for_unit.
  - intros unit limit. unfold list_runs.
    destruct (invalid_unit unit); [apply rae_raise|].
    destruct (_ || _); [apply rae_raise|].
    apply rae_bind; [apply rae_resolve_log_unit|]. intros lu.
    apply rae_bind; [apply (rae_run w (JournalScan lu))|]. intros scan.
    apply rae_bind; [apply rae_lift|]. intros ids.
    apply rae_bind; [|intros; apply rae_ret].
    apply rae_mapM. intros inv. unfold fetch_run.
    apply rae_bind; [apply (rae_run w (JournalInvocation lu inv))|].
    intros; apply rae_lift.
  - intros unit inv limit. unfold logs_for_invocation.
    destruct (invalid_unit unit); [apply rae_raise|].
    destruct (String.eqb inv "" || _); [apply rae_raise|].
    destruct (_ || _); [apply rae_raise|].
    apply rae_bind; [apply rae_resolve_log_unit|]. intros lu.
    apply (rae_run w (JournalCat lu inv limit)).
  - intros targets. unfold units_for_targets.
    destruct targets as [|t targets]; [apply rae_list_units|].
    apply rae_bind; [apply rae_collect_wanted|]. intros wanted.
    case_decide; [apply rae_list_units|].
    apply rae_bind; [apply rae_list_units|]. intros; apply rae_ret.
  - intros unit. unfold unit_detail.
    destruct (invalid_unit unit); [apply rae_raise|].
    apply rae_bind; [apply (rae_run w (ShowUnit unit))|]. intros props.
    apply rae_bind; [apply (rae_run w (CatUnit unit))|]. intros; apply rae_ret.
Qed.

(** ** The commands of [units_for_targets] *)

Lemma collect_wanted_trace `{PyText} (w : world) (targets : list string) :
  ∀ (wanted wanted' : gset string) (tr tr' : trace),
    collect_wanted w targets wanted tr = (inr wanted', tr') →
    tr' = tr ++ (ListDependencies <$>
                 List.filter (fun t => negb (skipped_target t)) targets).
Proof.
  induction targets as [|t targets IH]; intros wanted wanted' tr tr' Hc;
    cbn [collect_wanted] in Hc; simpl.
  - apply mret_inr in Hc as [_ ->]. by rewrite app_nil_r.
  - destruct (skipped_target t); simpl; [by eapply IH|].
    M_inv Hc as deps tr1 Hdeps. M_inv Hc as wanted1 tr2 Hw.
    apply (run_inr w (ListDependencies t)) in Hdeps as [_ ->].
    apply lift_inr in Hw as [_ ->]. apply IH in Hc as ->.
    by rewrite <- app_assoc.
Qed.

Lemma sublist_list_filter {A} (p : A -> bool) (l : list A) :
  List.filter p l `sublist_of` l.
Proof.
  induction l as [|x l IH]; simpl; [done|].
  destruct (p x); by constructor.
Qed.

(** X12. When [units_for_targets] returns, it has asked for the
    dependencies of exactly the names it did not pass over, once each and
    in the order given, and then for the two catalog listings; what it
    returns is a part of the catalog in catalog order, never a unit the
    catalog lacks. *)
Theorem target_filter_commands `{PyText} (w : world) (targets : list string)
    (tr tr' : trace) (items : list unit_item) :
  units_for_targets w targets tr = (inr items, tr') →
  let asked := ListDependencies <$>
                 List.filter (fun t => negb (skipped_target t)) targets in
  tr' = tr ++ asked ++ [ListUnitFiles; ListUnits] ∧
  ∃ catalog,
    list_units w (tr ++ asked) = (inr catalog, tr') ∧ items `sublist_of` catalog.
Proof.
  intros Hu asked. unfold units_for_targets in Hu.
  assert (∀ tr1 catalog, list_units w tr1 = (inr catalog, tr') →
                         tr' = tr1 ++ [ListUnitFiles; ListUnits]) as Hcat.
  { intros tr1 catalog Hl. by apply list_units_inr in Hl as [-> _]. }
  destruct targets as [|t0 targets].
  - subst asked. simpl. rewrite app_nil_r.
    split; [by eapply Hcat|]. by exists items.
  - M_inv Hu as wanted tr1 Hc. apply collect_wanted_trace in Hc. fold asked in Hc.
    subst tr1. case_decide.
    + split; [rewrite app_assoc; by eapply Hcat|]. by exists items.
    + M_inv Hu as catalog tr2 Hl. apply mret_inr in Hu as [-> ->].
      split; [rewrite app_assoc; by eapply Hcat|].
      exists catalog. split; [done|]. apply sublist_list_filter.
Qed.

Lemma target_filter_commands_witness :
  Demo.filtered_trace =
    [] ++ [ListDependencies "timers.target"] ++ [ListUnitFiles; ListUnits] ∧
  u_unit <$> Demo.filtered_units = ["backup.timer"].
Proof.
  split; [|reflexivity].
  apply (target_filter_commands Demo.host ["backup.service"; "timers.target"; "x y.target"]
           [] Demo.filtered_trace Demo.filtered_units).
  vm_compute. reflexivity.
Defined.

(** ** The request handler *)

Lemma answer_with_cases {A} (catches : bool) (ok : A -> payload) (m : M A)
    (tr tr' : trace) (r : response) :
  answer_with catches ok m tr = (r, tr') →
  (∃ a, m tr = (inr a, tr') ∧ r = Json OK (ok a)) ∨
  (∃ e, m tr = (inl e, tr') ∧
        r = Json (if catches && is_value_error e
                  then BAD_REQUEST else INTERNAL_SERVER_ERROR) (PError e)).
Proof.
  unfold answer_with. destruct (m tr) as [[e|a] tr1]; intros [= <- <-]; eauto.
Qed.

Lemma split_once_app (sep : ascii) (a b : string) :
  contains (String sep "") a = false →
  split_once sep (a +:+ String sep b) = Some (a, b).
Proof.
  induction a as [|c a IH].
  - intros _. change ("" +:+ String sep b) with (String sep b).
    cbn [split_once]. by rewrite Ascii.eqb_refl.
  - change (String c a +:+ String sep b) with (String c (a +:+ String sep b)).
    cbn [split_once contains].
    intros [Hc Ha]%orb_false_iff. rewrite (IH Ha). cbn [String.prefix] in Hc.
    destruct (Ascii.eqb_spec c sep) as [->|Hne]; [|done].
    destruct (ascii_dec sep sep); [|done]. by destruct a.
Qed.

Lemma prefix_empty (s : string) : String.prefix "" s = true.
Proof. by destruct s. Qed.

(** Unfold an append whose left part is a literal, then decide the route. *)
Ltac route :=
  unfold do_GET, startswith;
  cbv [String.append]; cbn [String.eqb Ascii.eqb Bool.eqb String.prefix];
  repeat match goal with
         | |- context [ascii_dec ?a ?b] =>
             let d := eval vm_compute in (ascii_dec a b) in
             change (ascii_dec a b) with d; cbv iota
         end;
  rewrite ?prefix_empty;
  cbn [String.length str_drop].

(** X14. A JSON answer of the handler has status 200, 400 or 500.  It is
    200 exactly when the backend function returned, and the body is then
    the route's own object; 400 only for the path error of the logs route
    or an exception of the [ValueError] class; 500 for every other
    exception.  The routes for targets, timers and units never answer 400:
    there every exception gives 500. *)
Theorem api_status_classes `{PyText} `{PyWeb} (w : world) (path : string)
    (qs : gmap string (list string)) (tr tr' : trace) (status : Z) (body : payload) :
  do_GET w path qs tr = (Json status body, tr') →
  (status = OK ∧ (∀ e, body ≠ PError e) ∧ body ≠ PInvalidPath) ∨
  (status = BAD_REQUEST ∧
   (body = PInvalidPath ∨ ∃ e, body = PError e ∧ is_value_error e = true) ∧
   path ≠ "/api/targets" ∧ path ≠ "/api/timers" ∧ path ≠ "/api/units") ∨
  (status = INTERNAL_SERVER_ERROR ∧
   ∃ e, body = PError e ∧
        (is_value_error e = false ∨
         path = "/api/targets" ∨ path = "/api/timers" ∨ path = "/api/units")).
Proof.
  assert (∀ A (ok : A -> payload) (m : M A),
            (∀ a e, ok a ≠ PError e) → (∀ a, ok a ≠ PInvalidPath) →
            answer_with false ok m tr = (Json status body, tr') →
            (status = OK ∧ (∀ e, body ≠ PError e) ∧ body ≠ PInvalidPath) ∨
            (status = INTERNAL_SERVER_ERROR ∧ ∃ e, body = PError e)) as Hplain.
  { intros A ok m Hok1 Hok2 [(a & _ & [= -> ->])|(e & _ & [= -> ->])]%answer_with_cases;
      [left|right]; eauto. }
  assert (∀ A (ok : A -> payload) (m : M A),
            (∀ a e, ok a ≠ PError e) → (∀ a, ok a ≠ PInvalidPath) →
            answer_with true ok m tr = (Json status body, tr') →
            (status = OK ∧ (∀ e, body ≠ PError e) ∧ body ≠ PInvalidPath) ∨
            (status = BAD_REQUEST ∧ ∃ e, body = PError e ∧ is_value_error e = true) ∨
            (status = INTERNAL_SERVER_ERROR ∧
             ∃ e, body = PError e ∧ is_value_error e = false)) as Hcatch.
  { intros A ok m Hok1 Hok2 [(a & _ & [= -> ->])|(e & _ & [= -> ->])]%answer_with_cases;
      [left; eauto|].
    right. cbn [andb]. destruct (is_value_error e) eqn:He; [left|right]; eauto. }
  unfold do_GET.
  destruct (String.eqb_spec path "/api/targets") as [->|Hn1].
  { intros Hr. apply Hplain in Hr as [Hr|[-> [e ->]]]; [by left| |done..].
    right; right. split; [done|]. exists e. split; [done|]. right. by left. }
  destruct (String.eqb_spec path "/api/timers") as [->|Hn2].
  { intros Hr. apply Hplain in Hr as [Hr|[-> [e ->]]]; [by left| |done..].
    right; right. split; [done|]. exists e. split; [done|]. right. right. by left. }
  assert (∀ A (ok : A -> payload) (m : M A),
            (∀ a e, ok a ≠ PError e) → (∀ a, ok a ≠ PInvalidPath) →
            path ≠ "/api/units" →
            answer_with true ok m tr = (Json status body, tr') →
            (status = OK ∧ (∀ e, body ≠ PError e) ∧ body ≠ PInvalidPath) ∨
            (status = BAD_REQUEST ∧
             (body = PInvalidPath ∨ ∃ e, body = PError e ∧ is_value_error e = true) ∧
             path ≠ "/api/targets" ∧ path ≠ "/api/timers" ∧ path ≠ "/api/units") ∨
            (status = INTERNAL_SERVER_ERROR ∧
             ∃ e, body = PError e ∧
                  (is_value_error e = false ∨
                   path = "/api/targets" ∨ path = "/api/timers" ∨
                   path = "/api/units"))) as Hunit.
  { intros A ok m Hok1 Hok2 Hn3 Hr.
    apply Hcatch in Hr as [Hr|[[-> (e & -> & He)]|[-> (e & -> & He)]]];
      [| | |done..].
    - left. exact Hr.
    - right; left. split_and!; [done|right; by exists e|done..].
    - right; right. split; [done|]. exists e. by split; [|left]. }
  destruct (startswith "/api/schedule/" path) eqn:Hs.
  { apply Hunit; [done..|]. intros ->. discriminate. }
  destruct (startswith "/api/runs/" path) eqn:Hr.
  { apply Hunit; [done..|]. intros ->. discriminate. }
  destruct (startswith "/api/logs/" path) eqn:Hl.
  { destruct (split_once _ _) as [[unit_enc inv_enc]|].
    - apply Hunit; [done..|]. intros ->. discriminate.
    - intros [= <- <- _]. right; left. split_and!; [done|by left|done|done|].
      intros ->. discriminate. }
  destruct (String.eqb_spec path "/api/units") as [->|Hn3].
  { intros Hr'. apply Hplain in Hr' as [Hu|[-> [e ->]]]; [by left| |done..].
    right; right. split; [done|]. exists e. split; [done|]. right. right. by right. }
  destruct (startswith "/api/unit/" path) eqn:Hd; [|discriminate].
  by apply Hunit.
Qed.

Lemma api_status_classes_witness :
  fst (do_GET Demo.host "/api/runs/backup.timer" DemoWeb.limit_abc []) =
    Json BAD_REQUEST
      (PError (ValueError "invalid literal for int() with base 10: 'abc'")) ∧
  fst (do_GET Demo.no_target_host "/api/units" {[ "targets" := ["a.target, b"] ]} []) =
    Json INTERNAL_SERVER_ERROR (PError (RuntimeError "Unit a.target not found.")) ∧
  (INTERNAL_SERVER_ERROR = OK ∨ INTERNAL_SERVER_ERROR = BAD_REQUEST ∨
   INTERNAL_SERVER_ERROR = INTERNAL_SERVER_ERROR).
Proof.
  split; [vm_compute; reflexivity|]. split; [vm_compute; reflexivity|].
  destruct (api_status_classes Demo.no_target_host "/api/units"
              {[ "targets" := ["a.target, b"] ]} [] [ListDependencies "a.target"]
              INTERNAL_SERVER_ERROR (PError (RuntimeError "Unit a.target not found.")))
    as [[Hs _]|[[Hs _]|[Hs _]]].
  - vm_compute. reflexivity.
  - left. exact Hs.
  - right. left. exact Hs.
  - right. right. exact Hs.
Defined.

(** X15. On the schedule, runs, logs and unit routes a name that, once
    unquoted, does not pass the unit test is answered with status 400 and
    the error of [ValueError("invalid unit")], and no command is issued
    (on the runs and logs routes once the limit parameter is an integer;
    without that they issue no command either). *)
Theorem api_rejects_invalid_unit `{PyText} `{PyWeb} (w : world) (enc : string)
    (qs : gmap string (list string)) (tr : trace) :
  invalid_unit (url_unquote enc) = true →
  let rejected := (Json BAD_REQUEST (PError (ValueError "invalid unit")), tr) in
  do_GET w ("/api/schedule/" +:+ enc) qs tr = rejected ∧
  do_GET w ("/api/unit/" +:+ enc) qs tr = rejected ∧
  (∀ n, query_limit qs "10" = inr n →
        do_GET w ("/api/runs/" +:+ enc) qs tr = rejected) ∧
  snd (do_GET w ("/api/runs/" +:+ enc) qs tr) = tr ∧
  (∀ inv_enc, contains "/" enc = false →
     snd (do_GET w ("/api/logs/" +:+ enc +:+ "/" +:+ inv_enc) qs tr) = tr ∧
     ∀ n, query_limit qs "400" = inr n →
          do_GET w ("/api/logs/" +:+ enc +:+ "/" +:+ inv_enc) qs tr = rejected).
Proof.
  intros Hinv rejected. subst rejected. split_and!.
  - route. unfold answer_with, schedule_for_unit. by rewrite Hinv.
  - route. unfold answer_with, unit_detail. by rewrite Hinv.
  - intros n Hn. route. unfold answer_with. rewrite M_bind_eq. unfold lift.
    rewrite Hn. unfold list_runs. by rewrite Hinv.
  - route. unfold answer_with. rewrite M_bind_eq. unfold lift.
    destruct (query_limit qs "10") as [e|n]; [done|].
    unfold list_runs. by rewrite Hinv.
  - intros inv_enc Hslash.
    assert (do_GET w ("/api/logs/" +:+ enc +:+ "/" +:+ inv_enc) qs tr =
            answer_with true (PLogs (url_unquote enc) (url_unquote inv_enc))
              (limit ← lift (query_limit qs "400");
               logs_for_invocation w (url_unquote enc) (url_unquote inv_enc) limit) tr)
      as ->.
    { route. fold (String.append enc (String "/" inv_enc)).
      by rewrite (split_once_app "/" enc inv_enc Hslash). }
    unfold answer_with. rewrite M_bind_eq. unfold lift.
    destruct (query_limit qs "400") as [e|n].
    + split; [done|]. discriminate.
    + unfold logs_for_invocation. rewrite Hinv. split; [done|]. done.
Qed.

Lemma api_rejects_invalid_unit_witness :
  url_unquote "bad%20name" = "bad name" ∧
  do_GET Demo.host ("/api/schedule/" +:+ "bad%20name") DemoWeb.no_query [] =
    (Json BAD_REQUEST (PError (ValueError "invalid unit")), []).
Proof.
  split; [reflexivity|].
  apply (api_rejects_invalid_unit Demo.host "bad%20name" DemoWeb.no_query []).
  reflexivity.
Defined.

(** X16. The runs route takes the limit from the query: without a limit
    parameter it asks [list_runs] for 10 runs, and a limit that [int] cannot
    read is answered with status 400 before the unit name is looked at and
    before any command is issued. *)
Theorem api_runs_limit `{PyText} `{PyWeb} (w : world) (enc : string)
    (qs : gmap string (list string)) (tr : trace) :
  (qs !! "limit" = None → int_of_str "10" = Some 10 →
   do_GET w ("/api/runs/" +:+ enc) qs tr =
   answer_with true (fun data => PRuns (url_unquote enc) (fst data) (snd data))
     (list_runs w (url_unquote enc) 10) tr) ∧
  (∀ v more, qs !! "limit" = Some (v :: more) → v ≠ "" → int_of_str v = None →
     do_GET w ("/api/runs/" +:+ enc) qs tr =
     (Json BAD_REQUEST (PError (ValueError (int_error_text v))), tr)).
Proof.
  split.
  - intros Hq Hten. route. unfold answer_with. rewrite M_bind_eq. unfold lift.
    unfold query_limit. rewrite Hq. cbn [mbind exc_bind String.eqb]. by rewrite Hten.
  - intros v more Hq Hv Hint. route. unfold answer_with. rewrite M_bind_eq.
    unfold lift, query_limit. rewrite Hq. cbn [mbind exc_bind].
    destruct (String.eqb_spec v ""); [done|]. by rewrite Hint.
Qed.

Lemma api_runs_limit_witness :
  do_GET Demo.host ("/api/runs/" +:+ "backup.timer") DemoWeb.limit_abc [] =
    (Json BAD_REQUEST
       (PError (ValueError "invalid literal for int() with base 10: 'abc'")), []) ∧
  ∃ r, do_GET Demo.host ("/api/runs/" +:+ "backup.timer") DemoWeb.no_query [] =
         (r, Demo.history_trace ++
             [JournalInvocation "backup.service" Demo.inv_a]).
Proof.
  destruct (api_runs_limit Demo.host "backup.timer" DemoWeb.limit_abc []) as [_ Hbad].
  destruct (api_runs_limit Demo.host "backup.timer" DemoWeb.no_query []) as [Hdefault _].
  split.
  - apply (Hbad "abc" []); [reflexivity|discriminate|reflexivity].
  - rewrite Hdefault by reflexivity. eexists. vm_compute. reflexivity.
Defined.

(** X17. When the timer listing is not JSON, [json.loads] raises an error of
    the [ValueError] class: the timers route, which catches [Exception]
    only, answers 500, while the schedule route answers the same failure of
    the tool with 400, the status of a bad request, for every valid unit
    name. *)
Theorem timer_listing_not_json `{PyText} `{PyWeb} (w : world) (enc : string)
    (qs : gmap string (list string)) (tr : trace) :
  w tr ListTimers = Exit0 None →
  invalid_unit (url_unquote enc) = false →
  do_GET w "/api/timers" qs tr =
    (Json INTERNAL_SERVER_ERROR (PError JSONDecodeError), tr ++ [ListTimers]) ∧
  do_GET w ("/api/schedule/" +:+ enc) qs tr =
    (Json BAD_REQUEST (PError JSONDecodeError), tr ++ [ListTimers]).
Proof.
  intros Hw Hv.
  assert (list_timers w tr = (inl JSONDecodeError, tr ++ [ListTimers])) as Hl.
  { unfold list_timers. rewrite M_bind_eq. unfold run. by rewrite Hw. }
  split.
  - unfold do_GET. cbn [String.eqb Ascii.eqb Bool.eqb].
    unfold answer_with. by rewrite Hl.
  - route. unfold answer_with, schedule_for_unit. by rewrite Hv, M_bind_eq, Hl.
Qed.

Lemma timer_listing_not_json_witness :
  do_GET DemoWeb.text_timers_host "/api/timers" DemoWeb.no_query [] =
    (Json INTERNAL_SERVER_ERROR (PError JSONDecodeError), [] ++ [ListTimers]) ∧
  do_GET DemoWeb.text_timers_host ("/api/schedule/" +:+ "backup.service")
    DemoWeb.no_query [] =
    (Json BAD_REQUEST (PError JSONDecodeError), [] ++ [ListTimers]).
Proof.
  apply (timer_listing_not_json DemoWeb.text_timers_host "backup.service"
           DemoWeb.no_query []); reflexivity.
Defined.

(** ** [unit_detail] and [list_targets] *)

Lemma split_eq_inv (line k v : string) :
  split_eq line = Some (k, v) →
  line = k +:+ String "=" v ∧ contains "=" k = false.
Proof.
  revert k. induction line as [|c line IH]; intros k; cbn [split_eq]; [done|].
  destruct (Ascii.eqb_spec c "=") as [->|Hc].
  - intros [= <- <-]. done.
  - destruct (split_eq line) as [[a b]|]; [|done]. cbn. intros [= <- <-].
    destruct (IH a eq_refl) as [-> Ha]. split; [done|].
    cbn [contains String.prefix]. rewrite Ha.
    destruct (ascii_dec "=" c) as [<-|]; [done|]. done.
Qed.

Lemma props_from_lines (lines : list string) :
  ∀ (m : gmap string string) (k v : string),
    foldl (fun props line =>
             match split_eq line with
             | Some (k, v) => <[k := v]> props
             | None => props
             end) m lines !! k = Some v →
    m !! k = Some v ∨
    ∃ line, line ∈ lines ∧ line = k +:+ String "=" v ∧ contains "=" k = false.
Proof.
  induction lines as [|line lines IH]; intros m k v Hk; simpl in Hk; [by left|].
  apply IH in Hk as [Hk|(l & Hl & Heq)].
  - destruct (split_eq line) as [[k' v']|] eqn:Hline; [|by left].
    destruct (decide (k' = k)) as [->|Hne].
    + rewrite lookup_insert_eq in Hk. injection Hk as ->.
      right. exists line. split; [left|]. by apply split_eq_inv.
    + rewrite lookup_insert_ne in Hk by done. by left.
  - right. exists l. split; [by right|done].
Qed.

(** X18. When [unit_detail] returns, it has issued the property query and
    then the definition query for the unit, and nothing else; the detail
    names the unit, carries the definition text as printed, and every
    property in it was printed on a line [key=value] whose key holds no
    ["="] (so a value may hold one). *)
Theorem unit_detail_properties `{PyText} (w : world) (unit : string)
    (tr tr' : trace) (d : unit_info) :
  unit_detail w unit tr = (inr d, tr') →
  invalid_unit unit = false ∧
  tr' = tr ++ [ShowUnit unit; CatUnit unit] ∧
  d_unit d = unit ∧
  ∃ props_out,
    w tr (ShowUnit unit) = Exit0 props_out ∧
    w (tr ++ [ShowUnit unit]) (CatUnit unit) = Exit0 (d_cat d) ∧
    ∀ k v, d_properties d !! k = Some v →
           ∃ line, line ∈ str_splitlines props_out ∧
                   line = k +:+ String "=" v ∧ contains "=" k = false.
Proof.
  unfold unit_detail. intros Hd.
  destruct (invalid_unit unit); [discriminate|].
  M_inv Hd as props_out tr1 Hp. M_inv Hd as cat_out tr2 Hc.
  apply (run_inr w (ShowUnit unit)) in Hp as [Hp ->].
  apply (run_inr w (CatUnit unit)) in Hc as [Hc ->].
  apply mret_inr in Hd as [-> ->]. simpl. rewrite <- app_assoc.
  split_and!; [done..|]. exists props_out. split_and!; [done..|].
  intros k v Hk. apply props_from_lines in Hk as [Hk|Hk]; [|done].
  by rewrite lookup_empty in Hk.
Qed.

Lemma unit_detail_properties_witness :
  ∃ d, unit_detail Demo.host "a.service" [] =
         (inr d, [] ++ [ShowUnit "a.service"; CatUnit "a.service"]) ∧
       d_properties d !! "Id" = Some "a.service".
Proof.
  destruct (unit_detail Demo.host "a.service" []) as [[e|d] tr'] eqn:Hd;
    [vm_compute in Hd; discriminate|].
  destruct (unit_detail_properties Demo.host "a.service" [] tr' d Hd)
    as (_ & -> & _).
  exists d. split; [reflexivity|].
  assert (fst (unit_detail Demo.host "a.service" []) = inr d) as Hfst
    by (by rewrite Hd).
  vm_compute in Hfst. injection Hfst as <-. vm_compute. reflexivity.
Defined.

(** X19. When [list_targets] returns, it has issued the one target listing;
    the items are in ascending order of the unit names with no name twice,
    and each carries the load, active and sub state and a description, and
    never an enable state. *)
Theorem targets_sorted `{PyText} (w : world) (tr tr' : trace) (items : list unit_item) :
  list_targets w tr = (inr items, tr') →
  tr' = tr ++ [ListTargets] ∧
  StronglySorted (fun x y => String.leb (u_unit x) (u_unit y) = true) items ∧
  NoDup (u_unit <$> items) ∧
  Forall (fun item => u_unitFileState item = None ∧ is_Some (u_loadState item) ∧
                      is_Some (u_activeState item) ∧ is_Some (u_subState item) ∧
                      is_Some (u_description item)) items.
Proof.
  unfold list_targets. intros Hl. M_inv Hl as out tr1 Hout.
  apply (run_inr w ListTargets) in Hout as [_ ->].
  apply mret_inr in Hl as [-> ->].
  split_and!; [done|apply sort_on_sorted| |].
  - rewrite sort_on_perm, merged_units. apply NoDup_elements.
  - rewrite sort_on_perm. apply Forall_fmap, Forall_forall.
    intros name Hname%elem_of_elements%elem_of_dom. simpl.
    destruct Hname as [row Hrow]. rewrite Hrow, lookup_empty. simpl.
    split_and!; eauto.
Qed.

Lemma targets_sorted_witness :
  ∃ items, list_targets Demo.host [] = (inr items, [] ++ [ListTargets]) ∧
           u_unit <$> items = ["timers.target"].
Proof.
  destruct (list_targets Demo.host []) as [[e|items] tr'] eqn:Hl;
    [vm_compute in Hl; discriminate|].
  destruct (targets_sorted Demo.host [] tr' items Hl) as (-> & _).
  exists items. split; [reflexivity|].
  assert (fst (list_targets Demo.host []) = inr items) as Hfst by (by rewrite Hl).
  vm_compute in Hfst. by injection Hfst as <-.
Defined.
